(** * Scene-change detection: frame windows, labels and the video reader

    A shallow embedding of [autoshot_dataloader.py] (window generation and
    label assignment of [AutoshotDataset]) and of [utils/video_reader.py]
    (the caching [VideoReader]), with the properties of the design
    document stated over it. *)

From Stdlib Require Import ZArith QArith Lia.
From stdpp Require Import gmap list sorting strings.

Local Open Scope Z_scope.

(** ** Python builtins used by both modules *)

(** [list(range(a, b))]: the integers [a, a+1, ..., b-1], empty when
    [b <= a]. *)
Definition range (a b : Z) : list Z := seqZ a (b - a).

(** [list(range(a, b, step))] for a positive [step]; a negative step with
    [a < b] gives the empty list, a zero step is an error the caller
    handles. *)
Definition range_step (a b step : Z) : list Z :=
  if 0 <? step
  then (λ i : nat, a + Z.of_nat i * step) <$> seq 0 (Z.to_nat ((b - a + step - 1) `div` step))
  else [].

(** [sorted(set(l))]: the set of the elements, then sorted ascending. *)
Definition sorted_set (l : list Z) : list Z :=
  merge_sort Z.le (elements (list_to_set l : gset Z)).

(** ** autoshot_dataloader.py *)

Module Dataloader.

(** One entry of [frame_boundaries]: the JSON object with keys [from] and
    [to]. *)
Record Boundary := mkBoundary { from_frame : Z; to_frame : Z }.

(** One entry of the annotation file. *)
Record VideoData := mkVideoData {
  filename : string;
  total_frames : Z;
  fps : Q;
  num_shots : Z;
  frame_boundaries : list Boundary
}.

(** The [sequence_info] dictionary appended to [sequences]. *)
Record SequenceInfo := mkSequenceInfo {
  video_data : VideoData;
  start_frame : Z;
  end_frame : Z;
  frame_positions : list Z;
  boundary : Boundary
}.

(** The fields of [AutoshotDataset] that window generation reads. *)
Record AutoshotDataset := mkDataset {
  sequence_length : Z;
  random_offset_range : Z;
  valid_videos : list VideoData
}.

(** The clamp, the acceptance test and the dictionary built from an
    unclamped start: the text both branches of [_generate_sequences] share
    after their [start_frame] is computed. The clamp is [max] first, then
    [min], as in the source. *)
Definition emit_sequence (self : AutoshotDataset) (vd : VideoData)
    (b : Boundary) (start : Z) : list SequenceInfo :=
  let start_frame := Z.max 0 start in
  let start_frame := Z.min start_frame (total_frames vd - sequence_length self) in
  if start_frame + sequence_length self <=? total_frames vd then
    [ {| video_data := vd;
         start_frame := start_frame;
         end_frame := start_frame + sequence_length self - 1;
         frame_positions := range start_frame (start_frame + sequence_length self);
         boundary := b |} ]
  else [].

(** [for _ in range(n)]: one draw of [random.randint] per trial. The
    ambient random source is the sequence [rand] of its outcomes; [k]
    counts the draws made so far. *)
Fixpoint variations (n : nat) (self : AutoshotDataset) (vd : VideoData)
    (b : Boundary) (base_start : Z) (rand : nat → Z) (k : nat)
    : list SequenceInfo * nat :=
  match n with
  | O => ([], k)
  | S n' =>
      let offset := rand k in
      let start_frame := base_start + offset in
      let here := emit_sequence self vd b start_frame in
      let '(rest, k') := variations n' self vd b base_start rand (S k) in
      (here ++ rest, k')
  end.

(** The body of [for boundary in boundaries]. *)
Definition boundary_sequences (self : AutoshotDataset) (vd : VideoData)
    (b : Boundary) (rand : nat → Z) (k : nat) : list SequenceInfo * nat :=
  let transition_center := (from_frame b + to_frame b) `div` 2 in
  let half_length := sequence_length self `div` 2 in
  let base_start := transition_center - half_length in
  if 0 <? random_offset_range self
  then variations 3 self vd b base_start rand k
  else (emit_sequence self vd b base_start, k).

Fixpoint boundaries_sequences (self : AutoshotDataset) (vd : VideoData)
    (bs : list Boundary) (rand : nat → Z) (k : nat)
    : list SequenceInfo * nat :=
  match bs with
  | [] => ([], k)
  | b :: bs' =>
      let '(here, k1) := boundary_sequences self vd b rand k in
      let '(rest, k2) := boundaries_sequences self vd bs' rand k1 in
      (here ++ rest, k2)
  end.

Fixpoint videos_sequences (self : AutoshotDataset) (vds : list VideoData)
    (rand : nat → Z) (k : nat) : list SequenceInfo * nat :=
  match vds with
  | [] => ([], k)
  | vd :: vds' =>
      let '(here, k1) :=
        boundaries_sequences self vd (frame_boundaries vd) rand k in
      let '(rest, k2) := videos_sequences self vds' rand k1 in
      (here ++ rest, k2)
  end.

Definition _generate_sequences (self : AutoshotDataset) (rand : nat → Z)
    : list SequenceInfo :=
  fst (videos_sequences self (valid_videos self) rand 0%nat).

(** The label of one frame position. *)
Definition scene_label (from_frame to_frame frame_pos : Z) : Z :=
  if frame_pos <=? from_frame then 0
  else if to_frame <=? frame_pos then 2
  else 1.

Definition _get_scene_labels (sequence_info : SequenceInfo) : list Z :=
  let b := boundary sequence_info in
  scene_label (from_frame b) (to_frame b) <$> frame_positions sequence_info.

(** A ten-frame video with the single boundary [b], and a dataset of
    sixteen-frame sequences over it with jitter range [J]. *)
Definition short_video (b : Boundary) : VideoData :=
  mkVideoData "short.mp4" 10 (30 # 1) 1 [b].

Definition short_dataset (J : Z) (b : Boundary) : AutoshotDataset :=
  mkDataset 16 J [short_video b].

(** A hundred-frame video with the instant cut (40, 41), sixteen-frame
    sequences, no jitter. *)
Definition scenario_A : AutoshotDataset :=
  mkDataset 16 0 [mkVideoData "a.mp4" 100 (30 # 1) 1 [mkBoundary 40 41]].

End Dataloader.

(** ** utils/video_reader.py *)

Module Reader.

(** A decoded image ([np.ndarray], height x width x 3). *)
Definition ndarray : Type := list (list (list Z)).

(** The float Python computes for [n / q], an int divided by a float. The
    rounding to a double is not modelled: the value is kept as the
    division it results from, and two such values are the same float when
    dividend and divisor agree. *)
Record float_div := mk_float_div { dividend : Z; divisor : Q }.

(** [FrameData]. Python hands out references to these objects; [ref] is
    the identity of the object (its allocation number), which [is]
    compares. The class never mutates a [FrameData] after building it. *)
Record FrameData := mkFrameData {
  ref : nat;
  frame : ndarray;
  position : Z;
  timestamp : float_div
}.

(** What the file system and OpenCV answer for [video_path]: whether the
    path exists, whether a capture of it reports [isOpened()], the
    properties the capture returns, and the outcome of
    [set(CAP_PROP_POS_FRAMES, p)] followed by [read()] on an opened
    capture ([None] stands for [ret == False]). *)
Record VideoFile := mkVideoFile {
  path_exists : bool;
  is_opened : bool;
  frame_count : Z;
  frame_rate : Q;
  frame_width : Z;
  frame_height : Z;
  read_at : Z → option ndarray
}.

(** What the file system answers when frames are saved: whether
    [output_dir.mkdir(parents=True, exist_ok=True)] raises, and whether
    [cv2.imwrite] raises for a file name in a directory. *)
Record FileSystem := mkFileSystem {
  mkdir_raises : string → bool;
  imwrite_raises : string → string → bool
}.

(** A [cv2.VideoCapture] object. *)
Record Capture := mkCapture { cap_opened : bool }.

(** Calls that reach OpenCV or the file system, in the order made. *)
Inductive call :=
  | VideoCapture_new
  | cap_release
  | cap_set (position : Z)
  | cap_read
  | mkdir
  | imwrite (position : Z).

Inductive exn :=
  | FileNotFoundError
  | RuntimeError_open      (* "Failed to open video" *)
  | RuntimeError_read      (* "Failed to read frame at position" *)
  | ValueError_range       (* "Position ... out of range" *)
  | ValueError_step        (* range() arg 3 must not be zero *)
  | TypeError
  | AttributeError
  | ZeroDivisionError
  | OSError                (* [Path.mkdir] *)
  | FormatError            (* [str.format]: KeyError, IndexError or ValueError *)
  | cv2_error.             (* [cv2.imwrite] *)

(** The attributes of a [VideoReader] instance. *)
Record VideoReader := mkVideoReader {
  _cap : option Capture;
  _total_frames : option Z;
  _fps : option Q;
  _frame_cache : gmap Z FrameData
}.

(** The instance together with the calls made so far and the number of
    [FrameData] objects built so far. *)
Record state := mkState {
  self : VideoReader;
  calls : list call;
  allocated : nat
}.

Inductive result (A : Type) :=
  | Ok (a : A)
  | Raise (e : exn).
Arguments Ok {A} a.
Arguments Raise {A} e.

(** Computations that read and write the state and may raise; what was
    written before a [raise] stays written. *)
Definition M (A : Type) : Type := state → result A * state.

#[global] Instance M_ret : MRet M := λ A a s, (Ok a, s).
#[global] Instance M_bind : MBind M := λ A B f m s,
  match m s with
  | (Ok a, s') => f a s'
  | (Raise e, s') => (Raise e, s')
  end.

Definition raise {A} (e : exn) : M A := λ s, (Raise e, s).
Definition get_self : M VideoReader := λ s, (Ok (self s), s).
Definition put_self (r : VideoReader) : M unit :=
  λ s, (Ok (), mkState r (calls s) (allocated s)).
Definition do_call (c : call) : M unit :=
  λ s, (Ok (), mkState (self s) (calls s ++ [c]) (allocated s)).
Definition new_ref : M nat :=
  λ s, (Ok (allocated s), mkState (self s) (calls s) (S (allocated s))).

Definition set_cap (c : option Capture) : M unit :=
  r ← get_self;
  put_self (mkVideoReader c (_total_frames r) (_fps r) (_frame_cache r)).
Definition set_cache (m : gmap Z FrameData) : M unit :=
  r ← get_self;
  put_self (mkVideoReader (_cap r) (_total_frames r) (_fps r) m).

(** A position specification: an integer or a list (or tuple) of
    position specifications. *)
#[warnings="-register-all"] Inductive Positions :=
  | PInt (z : Z)
  | PList (l : list Positions).

Section Reader.

Variable vf : VideoFile.

(** [VideoReader(video_path)]: the result and the calls made. *)
Definition __init__ : result VideoReader * list call :=
  if negb (path_exists vf) then (Raise FileNotFoundError, [])
  else (Ok (mkVideoReader None None None ∅), []).

Definition open : M unit :=
  r ← get_self;
  match _cap r with
  | None =>
      do_call VideoCapture_new;;
      set_cap (Some (mkCapture (is_opened vf)));;
      if negb (is_opened vf) then raise RuntimeError_open
      else
        r ← get_self;
        put_self (mkVideoReader (_cap r) (Some (frame_count vf))
                                (Some (frame_rate vf)) (_frame_cache r))
  | Some _ => mret ()
  end.

Definition close : M unit :=
  r ← get_self;
  match _cap r with
  | Some _ => do_call cap_release;; set_cap None
  | None => mret ()
  end;;
  set_cache ∅.

Definition __enter__ : M unit := open.
Definition __exit__ : M unit := close.

(** The [total_frames] property; [None] is Python's [None]. *)
Definition total_frames : M (option Z) :=
  r ← get_self;
  match _total_frames r with None => open | Some _ => mret () end;;
  r ← get_self;
  mret (_total_frames r).

(** The [fps] property. *)
Definition fps : M (option Q) :=
  r ← get_self;
  match _fps r with None => open | Some _ => mret () end;;
  r ← get_self;
  mret (_fps r).

(** [n / q] of an int (or [None]) by a float (or [None]): a zero divisor
    raises, [None] on either side is a [TypeError]; otherwise the result
    is the float of this division. *)
Definition true_div (n : option Z) (q : option Q) : M float_div :=
  match n, q with
  | Some n, Some q =>
      if Qeq_bool q 0 then raise ZeroDivisionError
      else mret (mk_float_div n q)
  | _, _ => raise TypeError
  end.

(** [0 <= position < self.total_frames]: a chained comparison, so the
    property is read only when [0 <= position] holds. *)
Definition position_in_range (position : Z) : M bool :=
  if 0 <=? position then
    t ← total_frames;
    match t with
    | Some n => mret (position <? n)
    | None => raise TypeError
    end
  else mret false.

Definition get_frame_at_position (position : Z) (use_cache : bool)
    : M FrameData :=
  ok ← position_in_range position;
  if negb ok then
    (* the message reads the property once more *)
    total_frames;; raise ValueError_range
  else
    r ← get_self;
    match (if use_cache then _frame_cache r !! position else None) with
    | Some fd => mret fd
    | None =>
        match _cap r with None => open | Some _ => mret () end;;
        r ← get_self;
        match _cap r with
        | None => raise AttributeError
        | Some cap =>
            do_call (cap_set position);;
            do_call cap_read;;
            match (if cap_opened cap then read_at vf position else None) with
            | None => raise RuntimeError_read
            | Some frame =>
                q ← fps;
                timestamp ← true_div (Some position) q;
                id ← new_ref;
                let frame_data := mkFrameData id frame position timestamp in
                (if use_cache then
                   r ← get_self;
                   set_cache (<[position := frame_data]> (_frame_cache r))
                 else mret ());;
                mret frame_data
            end
        end
    end.

(** [_flatten_positions]: the recursion of the source goes through the
    items of a list and into every item that is itself a list. *)
Fixpoint flatten_item (item : Positions) : list Z :=
  match item with
  | PList l =>
      (fix flatten_items (positions : list Positions) : list Z :=
         match positions with
         | [] => []
         | item :: rest => flatten_item item ++ flatten_items rest
         end) l
  | PInt z => [z]
  end.

Definition _flatten_positions (positions : list Positions) : list Z :=
  flatten_item (PList positions).

(** [for position in unique_positions: frames.append(...)]. *)
Fixpoint get_each (positions : list Z) (use_cache : bool)
    : M (list FrameData) :=
  match positions with
  | [] => mret []
  | position :: rest =>
      frame_data ← get_frame_at_position position use_cache;
      frames ← get_each rest use_cache;
      mret (frame_data :: frames)
  end.

Definition get_frames (positions : list Positions) (use_cache : bool)
    : M (list FrameData) :=
  let flattened_positions := _flatten_positions positions in
  let unique_positions := sorted_set flattened_positions in
  get_each unique_positions use_cache.

(** [positions.extend(range(start, end + 1, step))] over the pairs. *)
Fixpoint expand_ranges (position_ranges : list (Z * Z)) (step : Z)
    : M (list Z) :=
  match position_ranges with
  | [] => mret []
  | (start, end_) :: rest =>
      let '(start, end_) :=
        if end_ <? start then (end_, start) else (start, end_) in
      (if step =? 0 then raise ValueError_step else mret ());;
      positions ← expand_ranges rest step;
      mret (range_step start (end_ + 1) step ++ positions)
  end.

Definition get_frames_from_ranges (position_ranges : list (Z * Z))
    (step : Z) (use_cache : bool) : M (list FrameData) :=
  positions ← expand_ranges position_ranges step;
  get_frames (PInt <$> positions) use_cache.

(** [all_positions.extend(range(start, end + 1))] over the centers; the
    [total_frames] property is read at every center. *)
Fixpoint expand_around (positions : list Z) (half_window : Z) : M (list Z) :=
  match positions with
  | [] => mret []
  | pos :: rest =>
      let start := Z.max 0 (pos - half_window) in
      t ← total_frames;
      match t with
      | None => raise TypeError
      | Some n =>
          let end_ := Z.min (n - 1) (pos + half_window) in
          all_positions ← expand_around rest half_window;
          mret (range start (end_ + 1) ++ all_positions)
      end
  end.

Definition get_frames_around_positions (positions : list Z)
    (window_size : Z) (use_cache : bool) : M (list FrameData) :=
  let half_window := window_size `div` 2 in
  all_positions ← expand_around positions half_window;
  get_frames (PInt <$> all_positions) use_cache.

(** [for frame_data in frames]: format the file name, then write the
    image. [filename_template] is the template as the function
    [filename_template.format(position=p)] of the position, [None] where
    [format] raises. A [False] returned by [cv2.imwrite] is ignored by the
    source, an exception of it is not. *)
Fixpoint save_each (output_dir : string) (filename_template : Z → option string)
    (fs : FileSystem) (frames : list FrameData) : M unit :=
  match frames with
  | [] => mret ()
  | frame_data :: rest =>
      match filename_template (position frame_data) with
      | None => raise FormatError
      | Some filename =>
          do_call (imwrite (position frame_data));;
          if imwrite_raises fs output_dir filename then raise cv2_error
          else save_each output_dir filename_template fs rest
      end
  end.

(** [extract_frames_batch]; [output_dir] is [None] or a directory. The
    directory creation and the image writes are recorded as calls; they
    come after every change to the reader. *)
Definition extract_frames_batch (positions : list Positions)
    (output_dir : option string) (filename_template : Z → option string)
    (fs : FileSystem) : M (list FrameData) :=
  frames ← get_frames positions true;
  match output_dir with
  | Some output_dir =>
      do_call mkdir;;
      (if mkdir_raises fs output_dir then raise OSError else mret ());;
      save_each output_dir filename_template fs frames
  | None => mret ()
  end;;
  mret frames.

Record VideoInfo := mkVideoInfo {
  info_total_frames : option Z;
  info_fps : option Q;
  duration_seconds : float_div;
  width : Z;
  height : Z
}.

Definition get_video_info : M VideoInfo :=
  r ← get_self;
  match _cap r with None => open | Some _ => mret () end;;
  t ← total_frames;
  q ← fps;
  t' ← total_frames;
  q' ← fps;
  d ← true_div t' q';
  r ← get_self;
  match _cap r with
  | None => raise AttributeError
  | Some cap =>
      mret (mkVideoInfo t q d
              (if cap_opened cap then frame_width vf else 0)
              (if cap_opened cap then frame_height vf else 0))
  end.

(** The public operations of a reader, as a client may call them one
    after the other; an exception is caught by the client and the next
    operation runs on the instance as the failed one left it. *)
Inductive op :=
  | op_open
  | op_close
  | op_enter
  | op_exit
  | op_total_frames
  | op_fps
  | op_get_frame_at_position (position : Z) (use_cache : bool)
  | op_get_frames (positions : list Positions) (use_cache : bool)
  | op_get_frames_from_ranges (position_ranges : list (Z * Z)) (step : Z)
      (use_cache : bool)
  | op_get_frames_around_positions (positions : list Z) (window_size : Z)
      (use_cache : bool)
  | op_extract_frames_batch (positions : list Positions)
      (output_dir : option string) (filename_template : Z → option string)
      (fs : FileSystem)
  | op_get_video_info.

Definition run_op (o : op) (s : state) : state :=
  match o with
  | op_open => snd (open s)
  | op_close => snd (close s)
  | op_enter => snd (__enter__ s)
  | op_exit => snd (__exit__ s)
  | op_total_frames => snd (total_frames s)
  | op_fps => snd (fps s)
  | op_get_frame_at_position p uc => snd (get_frame_at_position p uc s)
  | op_get_frames l uc => snd (get_frames l uc s)
  | op_get_frames_from_ranges rs st uc => snd (get_frames_from_ranges rs st uc s)
  | op_get_frames_around_positions ps w uc =>
      snd (get_frames_around_positions ps w uc s)
  | op_extract_frames_batch l d t fs => snd (extract_frames_batch l d t fs s)
  | op_get_video_info => snd (get_video_info s)
  end.

Definition run_ops (os : list op) (s : state) : state :=
  foldl (λ s o, run_op o s) s os.

(** The state right after a successful construction. *)
Definition fresh : state := mkState (mkVideoReader None None None ∅) [] 0.

(** Every cached frame sits under its own position, inside the video, and
    was built by this reader. *)
Definition cache_ok (s : state) : Prop :=
  ∀ p fd, _frame_cache (self s) !! p = Some fd →
    0 ≤ p < frame_count vf ∧ position fd = p ∧ (ref fd < allocated s)%nat.

(** The attribute combinations a reader of this file goes through: never
    opened; a capture that did not open; open; closed after having been
    open. *)
Definition attrs_ok (r : VideoReader) : Prop :=
  match _cap r, _total_frames r, _fps r with
  | None, None, None => _frame_cache r = ∅
  | Some c, None, None =>
      cap_opened c = false ∧ is_opened vf = false ∧ _frame_cache r = ∅
  | Some c, Some n, Some q =>
      cap_opened c = true ∧ is_opened vf = true ∧
      n = frame_count vf ∧ q = frame_rate vf
  | None, Some n, Some q =>
      is_opened vf = true ∧ n = frame_count vf ∧ q = frame_rate vf
  | _, _, _ => False
  end.

Definition wf (s : state) : Prop := cache_ok s ∧ attrs_ok (self s).

(** A computation that keeps [wf], whether it returns or raises. *)
Definition preserves {A} (m : M A) : Prop := ∀ s, wf s → wf (m s).2.

(** A video that opens, decodes at every position inside it and reports a
    frame rate other than zero. *)
Definition healthy : Prop :=
  is_opened vf = true ∧
  (∀ p, 0 ≤ p < frame_count vf → is_Some (read_at vf p)) ∧
  Qeq_bool (frame_rate vf) 0 = false.

(** The state [open] leaves when the capture opens, and the state it
    leaves when the capture does not. *)
Definition opened (s : state) : state :=
  match _cap (self s) with
  | Some _ => s
  | None =>
      mkState (mkVideoReader (Some (mkCapture true)) (Some (frame_count vf))
                 (Some (frame_rate vf)) (_frame_cache (self s)))
        (calls s ++ [VideoCapture_new]) (allocated s)
  end.

Definition failed (s : state) : state :=
  match _cap (self s) with
  | Some _ => s
  | None =>
      mkState (mkVideoReader (Some (mkCapture false)) (_total_frames (self s))
                 (_fps (self s)) (_frame_cache (self s)))
        (calls s ++ [VideoCapture_new]) (allocated s)
  end.

(** The state a read of the [total_frames] property leaves when the
    capture opens. *)
Definition touched (s : state) : state :=
  match _total_frames (self s) with Some _ => s | None => opened s end.

(** [get_frame_at_position] in closed form, for a file whose capture
    opens and a reader in one of the attribute combinations above
    ([get_frame_eq] below proves the two equal). *)
Definition get_frame_model (p : Z) (uc : bool) (s : state)
    : result FrameData * state :=
  if (0 <=? p) && (p <? frame_count vf) then
    match (if uc then _frame_cache (self s) !! p else None) with
    | Some fd => (Ok fd, touched s)
    | None =>
        let s1 := opened s in
        let cl := calls s1 ++ [cap_set p; cap_read] in
        match read_at vf p with
        | None => (Raise RuntimeError_read, mkState (self s1) cl (allocated s))
        | Some frame =>
            if Qeq_bool (frame_rate vf) 0
            then (Raise ZeroDivisionError, mkState (self s1) cl (allocated s))
            else
              let fd := mkFrameData (allocated s) frame p
                          (mk_float_div p (frame_rate vf)) in
              (Ok fd,
               mkState (mkVideoReader (_cap (self s1)) (Some (frame_count vf))
                          (Some (frame_rate vf))
                          (if uc then <[p := fd]> (_frame_cache (self s))
                           else _frame_cache (self s)))
                 cl (S (allocated s)))
        end
    end
  else (Raise ValueError_range, touched s).

(** The candidate positions [get_frames_around_positions] collects for
    one center once [total_frames] is known to be [n]. *)
Definition around_window (n half_window pos : Z) : list Z :=
  range (Z.max 0 (pos - half_window)) (Z.min (n - 1) (pos + half_window) + 1).

End Reader.

(** A hundred-frame video at 30 frames per second whose every frame
    decodes (the fixture of the repository's tests). *)
Definition video100 : VideoFile :=
  mkVideoFile true true 100 (30 # 1) 1920 1080
    (λ p, if (0 <=? p) && (p <? 100) then Some [] else None).

(** A file that is there but that OpenCV cannot open. *)
Definition broken_video : VideoFile :=
  mkVideoFile true false 0 (0 # 1) 0 0 (λ _, None).

(** A path at which there is no file. *)
Definition missing_video : VideoFile :=
  mkVideoFile false false 0 (0 # 1) 0 0 (λ _, None).

#[global] Instance call_eq_dec : EqDecision call.
Proof. solve_decision. Defined.

(** The positions the capture was moved to, in the order of the calls. *)
Definition seeks (cl : list call) : list Z :=
  omap (λ c, match c with cap_set p => Some p | _ => None end) cl.

(** The positions written to image files, in the order of the calls. *)
Definition writes (cl : list call) : list Z :=
  omap (λ c, match c with imwrite p => Some p | _ => None end) cl.

(** The calls that move the capture and read from it. *)
Definition decode_call (c : call) : Prop := c = cap_read ∨ ∃ p, c = cap_set p.

(** How many captures were created, and how many released. *)
Definition created (cl : list call) : nat :=
  length (filter (λ c, c = VideoCapture_new) cl).

Definition released (cl : list call) : nat :=
  length (filter (λ c, c = cap_release) cl).

(** A reader keeps a capture it created until it releases it. *)
Definition balanced (s : state) : Prop :=
  created (calls s) =
    (released (calls s) + match _cap (self s) with Some _ => 1 | None => 0 end)%nat.

(** A computation that keeps [P] on readers that satisfy [wf]. *)
Definition keeps (vf : VideoFile) (P : state → Prop) {A} (m : M A) : Prop :=
  ∀ s, wf vf s → P s → P (m s).2.

(** [with reader: body] on a constructed reader: [__enter__], then the
    body, then [__exit__] whether the body returned or raised; [__exit__]
    returns [None], so an exception of the body goes on to the caller.
    When [__enter__] raises, neither the body nor [__exit__] runs. *)
Definition with_reader (vf : VideoFile) {A} (body : M A) : M A := λ s,
  match __enter__ vf s with
  | (Raise e, s1) => (Raise e, s1)
  | (Ok _, s1) => let '(r, s2) := body s1 in (r, (__exit__ s2).2)
  end.

End Reader.

(** ** autoshot_dataloader.py: filtering, length and item access *)

Module Loader.

Import Dataloader.

(** [seq[idx]] on a Python list: indices from [-len] to [len - 1],
    negative ones counted from the end; anything else is an
    [IndexError] ([None] here). *)
Definition py_index {A} (l : list A) (idx : Z) : option A :=
  if (0 <=? idx) then l !! Z.to_nat idx
  else if (- Z.of_nat (length l) <=? idx) then l !! Z.to_nat (Z.of_nat (length l) + idx)
  else None.

(** The loop of [_filter_valid_videos]; [on_disk] answers
    [(videos_dir / filename).exists()]. *)
Fixpoint _filter_valid_videos (min_shots : Z) (on_disk : string → bool)
    (annotations : list VideoData) : list VideoData :=
  match annotations with
  | [] => []
  | video_data :: rest =>
      if num_shots video_data <? min_shots then
        _filter_valid_videos min_shots on_disk rest
      else if negb (on_disk (filename video_data)) then
        _filter_valid_videos min_shots on_disk rest
      else if bool_decide (frame_boundaries video_data = []) then
        _filter_valid_videos min_shots on_disk rest
      else video_data :: _filter_valid_videos min_shots on_disk rest
  end.

(** What [AutoshotDataset.__init__] computes from the loaded annotations:
    the valid videos, then the sequences. *)
Definition init_dataset (annotations : list VideoData)
    (on_disk : string → bool) (sequence_length min_shots random_offset_range : Z)
    (rand : nat → Z) : AutoshotDataset * list SequenceInfo :=
  let self :=
    mkDataset sequence_length random_offset_range
      (_filter_valid_videos min_shots on_disk annotations) in
  (self, _generate_sequences self rand).

Definition __len__ (sequences : list SequenceInfo) : nat := length sequences.

(** The number of windows [_generate_sequences] tries per boundary. *)
Definition trials (self : AutoshotDataset) : nat :=
  if 0 <? random_offset_range self then 3%nat else 1%nat.

Inductive item_error :=
  | IndexError
  | ReaderError (e : Reader.exn)
  | StackError.     (* torch.stack of an empty list *)

Section GetItem.

(** The file behind [videos_dir / filename], and [_preprocess_frame]
    (resize, colour conversion, scaling, the optional transform) as a
    function of the decoded image. *)
Context {Tensor : Type}.
Variable disk : string → Reader.VideoFile.
Variable _preprocess_frame : Reader.ndarray → Tensor.

(** [__getitem__]: the preprocessed frames in the order [get_frames]
    returned them, the labels, and the calls the reader of this item
    made. The frames are stacked and the labels turned into a tensor;
    the lists stand for the two tensors. *)
Definition __getitem__ (sequences : list SequenceInfo) (idx : Z)
    : (item_error + list Tensor * list Z) * list Reader.call :=
  match py_index sequences idx with
  | None => (inl IndexError, [])
  | Some sequence_info =>
      let video_data := video_data sequence_info in
      let frame_positions := frame_positions sequence_info in
      let vf := disk (filename video_data) in
      match Reader.__init__ vf with
      | (Reader.Raise e, cl) => (inl (ReaderError e), cl)
      | (Reader.Ok r, cl) =>
          let '(res, s) :=
            Reader.with_reader vf
              (Reader.get_frames vf (Reader.PInt <$> frame_positions) true)
              (Reader.mkState r cl 0) in
          match res with
          | Reader.Raise e => (inl (ReaderError e), Reader.calls s)
          | Reader.Ok frame_data_list =>
              let frames := (λ fd, _preprocess_frame (Reader.frame fd)) <$> frame_data_list in
              let labels := _get_scene_labels sequence_info in
              match frames with
              | [] => (inl StackError, Reader.calls s)
              | _ => (inr (frames, labels), Reader.calls s)
              end
          end
      end
  end.

End GetItem.

End Loader.

(** * Properties *)

(** ** Builtins *)

Example range_example : range 32 36 = [32; 33; 34; 35].
Proof. reflexivity. Qed.

Example sorted_set_example : sorted_set [5; 1; 5; 3; 1] = [1; 3; 5].
Proof. vm_compute. reflexivity. Qed.

Example range_step_example : range_step 10 16 2 = [10; 12; 14].
Proof. vm_compute. reflexivity. Qed.

Lemma elem_of_range a b x : x ∈ range a b ↔ a ≤ x < b.
Proof. unfold range. rewrite elem_of_seqZ. lia. Qed.

Lemma length_range a b : length (range a b) = Z.to_nat (b - a).
Proof. apply length_seqZ. Qed.

Lemma elem_of_sorted_set l x : x ∈ sorted_set l ↔ x ∈ l.
Proof.
  unfold sorted_set. rewrite merge_sort_Permutation, elem_of_elements.
  apply elem_of_list_to_set.
Qed.

Lemma NoDup_sorted_set l : NoDup (sorted_set l).
Proof.
  unfold sorted_set. rewrite merge_sort_Permutation. apply NoDup_elements.
Qed.

Lemma le_sorted_NoDup_lt (l : list Z) :
  StronglySorted Z.le l → NoDup l → StronglySorted Z.lt l.
Proof.
  induction 1 as [|x l Hs IH Hx]; intros Hnd; [constructor|].
  apply NoDup_cons in Hnd as [Hnot Hnd]. constructor; [by apply IH|].
  rewrite Forall_forall in Hx |- *. intros y Hy.
  assert (x ≠ y) by (by intros ->). specialize (Hx y Hy). lia.
Qed.

(** [sorted_set] is strictly ascending ... *)
Lemma sorted_set_ascending l : StronglySorted Z.lt (sorted_set l).
Proof.
  apply le_sorted_NoDup_lt; [|apply NoDup_sorted_set].
  unfold sorted_set. apply StronglySorted_merge_sort; apply _.
Qed.

(** ... and depends only on which integers occur in the list, not on
    their order or multiplicity. *)
Lemma sorted_set_ext l1 l2 :
  (∀ x, x ∈ l1 ↔ x ∈ l2) → sorted_set l1 = sorted_set l2.
Proof.
  intros H. unfold sorted_set. f_equal. f_equal. apply set_eq. intros x.
  by rewrite !elem_of_list_to_set.
Qed.

Lemma length_sorted_set l : length (sorted_set l) = size (list_to_set l : gset Z).
Proof. unfold sorted_set. by rewrite merge_sort_Permutation. Qed.

Lemma Forall_sorted_set (P : Z → Prop) l : Forall P l → Forall P (sorted_set l).
Proof.
  rewrite !Forall_forall. intros H x Hx. by apply H, elem_of_sorted_set.
Qed.

Lemma elem_of_concat (x : Z) (ls : list (list Z)) :
  x ∈ concat ls ↔ ∃ l, x ∈ l ∧ l ∈ ls.
Proof.
  induction ls as [|l0 ls IH]; cbn [concat].
  - split; [intros []%elem_of_nil|intros (l & _ & []%elem_of_nil)].
  - rewrite elem_of_app, IH. split.
    + intros [H|(l & ? & ?)]; [exists l0; split; [done|left]|].
      exists l. split; [done|by right].
    + intros (l & Hx & [->|H]%elem_of_cons); [by left|right; eauto].
Qed.

(** ** Window generation and labels *)

Section Windows.

Import Dataloader.

Implicit Types (self : AutoshotDataset) (vd : VideoData) (b : Boundary).

(** After [max] then [min] the start is at most
    [total_frames - sequence_length], so the acceptance test of
    [emit_sequence] holds whatever the start: one window per trial. *)
Lemma emit_sequence_eq self vd b start :
  let s := Z.min (Z.max 0 start) (total_frames vd - sequence_length self) in
  emit_sequence self vd b start =
    [ mkSequenceInfo vd s (s + sequence_length self - 1)
        (range s (s + sequence_length self)) b ].
Proof.
  intros s. unfold emit_sequence. fold s.
  destruct (Z.leb_spec (s + sequence_length self) (total_frames vd)) as [_|H].
  - reflexivity.
  - subst s. lia.
Qed.

(** On a video shorter than the sequence the clamped start is the
    negative number [total_frames - sequence_length]. *)
Lemma emit_sequence_short self vd b start :
  total_frames vd < sequence_length self →
  emit_sequence self vd b start =
    [ mkSequenceInfo vd (total_frames vd - sequence_length self)
        (total_frames vd - 1)
        (range (total_frames vd - sequence_length self) (total_frames vd)) b ].
Proof.
  intros Hlt. rewrite emit_sequence_eq.
  replace (Z.min (Z.max 0 start) (total_frames vd - sequence_length self))
    with (total_frames vd - sequence_length self) by lia.
  repeat f_equal; lia.
Qed.

(** On a video that is long enough the window lies inside the video. *)
Lemma emit_sequence_fits self vd b start w :
  0 ≤ sequence_length self ≤ total_frames vd →
  w ∈ emit_sequence self vd b start →
  video_data w = vd ∧ boundary w = b ∧
  0 ≤ start_frame w ∧ end_frame w < total_frames vd ∧
  end_frame w = start_frame w + sequence_length self - 1 ∧
  frame_positions w = range (start_frame w) (start_frame w + sequence_length self) ∧
  length (frame_positions w) = Z.to_nat (sequence_length self).
Proof.
  intros Hlen. rewrite emit_sequence_eq. intros ->%list_elem_of_singleton.
  cbn [video_data boundary start_frame end_frame frame_positions].
  rewrite length_range. repeat split; try lia; try (f_equal; lia).
Qed.

(** Where the windows of the nested loops come from. *)
Lemma variations_origin n self vd b base rand k w :
  w ∈ (variations n self vd b base rand k).1 →
  ∃ start, w ∈ emit_sequence self vd b start.
Proof.
  revert k. induction n as [|n IH]; intros k; cbn [variations].
  - intros []%elem_of_nil.
  - destruct (variations n self vd b base rand (S k)) as [rest k'] eqn:E.
    cbn [fst]. intros [H|H]%elem_of_app; [eauto|].
    apply (IH (S k)). by rewrite E.
Qed.

Lemma boundary_sequences_origin self vd b rand k w :
  w ∈ (boundary_sequences self vd b rand k).1 →
  ∃ start, w ∈ emit_sequence self vd b start.
Proof.
  unfold boundary_sequences. destruct (0 <? random_offset_range self).
  - apply variations_origin.
  - cbn [fst]. eauto.
Qed.

Lemma boundaries_sequences_origin self vd bs rand k w :
  w ∈ (boundaries_sequences self vd bs rand k).1 →
  ∃ b start, b ∈ bs ∧ w ∈ emit_sequence self vd b start.
Proof.
  revert k. induction bs as [|b bs IH]; intros k; cbn [boundaries_sequences].
  - intros []%elem_of_nil.
  - destruct (boundary_sequences self vd b rand k) as [here k1] eqn:E1.
    destruct (boundaries_sequences self vd bs rand k1) as [rest k2] eqn:E2.
    cbn [fst]. intros [H|H]%elem_of_app.
    + destruct (boundary_sequences_origin self vd b rand k w) as [start ?].
      { by rewrite E1. }
      exists b, start. split; [left|done].
    + destruct (IH k1 ltac:(by rewrite E2)) as (b' & start & ? & ?).
      exists b', start. split; [by right|done].
Qed.

Lemma videos_sequences_origin self vds rand k w :
  w ∈ (videos_sequences self vds rand k).1 →
  ∃ vd b start,
    vd ∈ vds ∧ b ∈ frame_boundaries vd ∧ w ∈ emit_sequence self vd b start.
Proof.
  revert k. induction vds as [|vd vds IH]; intros k; cbn [videos_sequences].
  - intros []%elem_of_nil.
  - destruct (boundaries_sequences self vd (frame_boundaries vd) rand k)
      as [here k1] eqn:E1.
    destruct (videos_sequences self vds rand k1) as [rest k2] eqn:E2.
    cbn [fst]. intros [H|H]%elem_of_app.
    + destruct (boundaries_sequences_origin self vd (frame_boundaries vd) rand k w)
        as (b & start & ? & ?).
      { by rewrite E1. }
      exists vd, b, start. split_and!; [left|done|done].
    + destruct (IH k1 ltac:(by rewrite E2)) as (vd' & b & start & ? & ? & ?).
      exists vd', b, start. split_and!; [by right|done|done].
Qed.

(** The window invariant on videos at least as long as the sequence:
    every generated window has [sequence_length] contiguous ascending
    positions, all inside the video. *)
Lemma generated_window_in_bounds self rand w :
  w ∈ _generate_sequences self rand →
  0 ≤ sequence_length self ≤ total_frames (video_data w) →
  length (frame_positions w) = Z.to_nat (sequence_length self) ∧
  frame_positions w = range (start_frame w) (start_frame w + sequence_length self) ∧
  0 ≤ start_frame w ∧ end_frame w < total_frames (video_data w) ∧
  ∀ p, p ∈ frame_positions w → 0 ≤ p < total_frames (video_data w).
Proof.
  intros Hin Hlen. unfold _generate_sequences in Hin.
  apply videos_sequences_origin in Hin as (vd & b & start & _ & _ & Hw).
  assert (video_data w = vd) as Hvd.
  { rewrite emit_sequence_eq in Hw. by apply list_elem_of_singleton in Hw as ->. }
  rewrite Hvd in *.
  destruct (emit_sequence_fits _ _ _ _ _ Hlen Hw)
    as (_ & _ & H0 & Hend & Hend' & Hpos & Hl).
  split_and!; try done.
  intros p. rewrite Hpos, elem_of_range. lia.
Qed.

End Windows.

Section WindowClaims.

Import Dataloader.

(** C1, evaluated on the code: for [total_frames = 10] and
    [sequence_length = 16], whatever the boundary and the random draws,
    [_generate_sequences] emits one window when the jitter range is 0 and
    three windows when it is positive; it never emits zero windows. *)
Theorem short_video_window_count (b : Boundary) (rand : nat → Z) (J : Z) :
  length (_generate_sequences (short_dataset J b) rand)
  = if 0 <? J then 3%nat else 1%nat.
Proof.
  unfold _generate_sequences, short_dataset.
  cbn [valid_videos videos_sequences short_video frame_boundaries
       boundaries_sequences].
  unfold boundary_sequences. cbn [random_offset_range].
  destruct (0 <? J); cbn [variations];
    rewrite !emit_sequence_short by (cbn; lia); reflexivity.
Qed.

(** C2, evaluated on the code: for [total_frames = 10],
    [sequence_length = 16] and no jitter, the one window emitted starts at
    frame -6 and its positions run from -6 to 9, six of them below 0. *)
Theorem short_video_window_negative (b : Boundary) (rand : nat → Z) :
  _generate_sequences (short_dataset 0 b) rand
  = [ mkSequenceInfo (short_video b) (-6) 9
        [-6; -5; -4; -3; -2; -1; 0; 1; 2; 3; 4; 5; 6; 7; 8; 9] b ].
Proof.
  unfold _generate_sequences, short_dataset.
  cbn [valid_videos videos_sequences short_video frame_boundaries
       boundaries_sequences].
  unfold boundary_sequences. cbn [random_offset_range Z.ltb Z.compare fst].
  rewrite emit_sequence_short by (cbn; lia). reflexivity.
Qed.

(** C3 as stated fails: the window of scenario A is not labelled with
    eight 0s followed by eight 2s. *)
Lemma scenario_A_not_eight_eight :
  ¬ ∃ w, _generate_sequences scenario_A (λ _, 0) = [w] ∧
         start_frame w = 32 ∧ end_frame w = 47 ∧
         _get_scene_labels w = replicate 8 0 ++ replicate 8 2.
Proof.
  intros (w & Hw & _ & _ & Hl).
  vm_compute in Hw. injection Hw as <-. vm_compute in Hl. discriminate Hl.
Qed.

(** C3, amended: in scenario A window generation emits exactly one window,
    with [start_frame = 32] and [end_frame = 47], and its labels are nine
    0s (positions 32 to 40, all [<= from_frame]) followed by seven 2s
    (positions 41 to 47). *)
Theorem scenario_A_window_and_labels (rand : nat → Z) :
  ∃ w, _generate_sequences scenario_A rand = [w] ∧
       start_frame w = 32 ∧ end_frame w = 47 ∧
       frame_positions w = range 32 48 ∧
       _get_scene_labels w = replicate 9 0 ++ replicate 7 2.
Proof.
  eexists. split; [reflexivity|]. repeat split.
Qed.

(** The label is 0, 1 or 2 and does not decrease with the position,
    whatever the two thresholds. *)
Lemma scene_label_range f t p : 0 ≤ scene_label f t p ≤ 2.
Proof. unfold scene_label. repeat case_match; lia. Qed.

Lemma scene_label_mono f t p q : p ≤ q → scene_label f t p ≤ scene_label f t q.
Proof. unfold scene_label. intros. repeat case_match; lia. Qed.

Lemma scene_label_cut f t p : t ≤ f + 1 → scene_label f t p ≠ 1.
Proof. unfold scene_label. intros. repeat case_match; lia. Qed.

(** C9: for a window with ascending positions and any boundary (also one
    with [to_frame <= from_frame]) the labels are non-decreasing and each
    is 0, 1 or 2; when [to_frame <= from_frame + 1] no label is 1. Each
    label is the three-way test of the position against the boundary. *)
Theorem labels_monotone (w : SequenceInfo) :
  Sorted Z.le (frame_positions w) →
  Sorted Z.le (_get_scene_labels w) ∧
  Forall (λ l, l = 0 ∨ l = 1 ∨ l = 2) (_get_scene_labels w) ∧
  (to_frame (boundary w) ≤ from_frame (boundary w) + 1 →
   1 ∉ _get_scene_labels w) ∧
  (∀ (i : nat) p, frame_positions w !! i = Some p →
     _get_scene_labels w !! i =
       Some (if p <=? from_frame (boundary w) then 0
             else if to_frame (boundary w) <=? p then 2 else 1)).
Proof.
  intros Hs. unfold _get_scene_labels. split_and!.
  - eapply Sorted_fmap; [|exact Hs]. intros p q. apply scene_label_mono.
  - apply Forall_fmap, Forall_forall. intros p _. cbn.
    pose proof (scene_label_range (from_frame (boundary w)) (to_frame (boundary w)) p).
    lia.
  - intros Hcut (p & Hp & _)%list_elem_of_fmap.
    by eapply scene_label_cut.
  - intros i p Hi. rewrite list_lookup_fmap, Hi. reflexivity.
Qed.

Lemma labels_monotone_witness :
  let w := mkSequenceInfo (short_video (mkBoundary 5 3)) 2 6 [2; 3; 4; 5; 6]
             (mkBoundary 5 3) in
  Sorted Z.le (_get_scene_labels w) ∧ (1 ∉ _get_scene_labels w) ∧
  _get_scene_labels w = [0; 0; 0; 0; 2].
Proof.
  intros w.
  destruct (labels_monotone w) as (Hs & _ & Hcut & _).
  - unfold w. cbn. repeat constructor; lia.
  - split; [exact Hs|]. split; [apply Hcut; cbn; lia | reflexivity].
Defined.

End WindowClaims.

(** ** The video reader *)

Section ReaderProps.

Import Reader.

Variable vf : VideoFile.

Implicit Types (s : state) (p : Z) (fd : FrameData).

Ltac run :=
  repeat (progress (
    unfold get_frame_at_position, position_in_range, total_frames, fps,
      open, close, __enter__, __exit__, true_div, set_cap, set_cache,
      get_self, put_self, do_call, new_ref, raise, mbind, M_bind, mret, M_ret;
    cbn [self calls allocated _cap _total_frames _fps _frame_cache
         cap_opened fst snd negb])).

(** *** The monad *)

Lemma bind_ok {A B} (m : M A) (f : A → M B) s a s' :
  m s = (Ok a, s') → (m ≫= f) s = f a s'.
Proof. unfold mbind, M_bind. by intros ->. Qed.

(** *** [open], [close] and the properties *)

Lemma open_eq s :
  open vf s =
    match _cap (self s) with
    | Some _ => (Ok (), s)
    | None => if is_opened vf then (Ok (), opened vf s)
              else (Raise RuntimeError_open, failed s)
    end.
Proof.
  destruct s as [[[c|] tf fp cache] cl al]; unfold opened, failed; run;
    [reflexivity|].
  destruct (is_opened vf); run; reflexivity.
Qed.

Lemma close_cache s : _frame_cache (self (close s).2) = ∅.
Proof. destruct s as [[[c|] tf fp cache] cl al]; run; reflexivity. Qed.

Lemma close_no_session s :
  _cap (self s) = None →
  close s =
    (Ok (), mkState (mkVideoReader None (_total_frames (self s)) (_fps (self s)) ∅)
              (calls s) (allocated s)).
Proof.
  destruct s as [[c tf fp cache] cl al]. cbn [self _cap]. intros ->.
  run. reflexivity.
Qed.

Lemma total_frames_eq s :
  wf vf s → is_opened vf = true →
  total_frames vf s = (Ok (Some (frame_count vf)), touched vf s).
Proof.
  destruct s as [[cap tf fp cache] cl al]. unfold wf, attrs_ok, touched, opened.
  cbn [self _cap _total_frames _fps _frame_cache].
  intros [Hc Ha] Ho.
  destruct cap as [[o]|], tf as [n|], fp as [q|]; try done;
    destruct_and?; cbn [cap_opened] in *; subst; try congruence;
    repeat (run; rewrite ?Ho); reflexivity.
Qed.

(** *** [get_frame_at_position] *)

Lemma get_frame_eq s p uc :
  wf vf s → is_opened vf = true →
  get_frame_at_position vf p uc s = get_frame_model vf p uc s.
Proof.
  destruct s as [[cap tf fp cache] cl al]. unfold wf, attrs_ok.
  cbn [self _cap _total_frames _fps _frame_cache].
  intros [Hc Ha] Ho. unfold get_frame_model, touched, opened.
  cbn [self calls allocated _cap _total_frames _fps _frame_cache].
  destruct cap as [[o]|], tf as [n|], fp as [q|]; try done;
    destruct_and?; cbn [cap_opened] in *; subst; try congruence;
    destruct (0 <=? p) eqn:E1, (p <? frame_count vf) eqn:E2, uc;
    cbn [andb];
    try destruct (cache !! p) as [fd|] eqn:E3;
    try destruct (read_at vf p) as [fr|] eqn:E4;
    try destruct (Qeq_bool (frame_rate vf) 0) eqn:E5;
    repeat (run; rewrite ?Ho, ?E1, ?E2, ?E3, ?E4, ?E5, ?lookup_empty);
    rewrite <- ?app_assoc; reflexivity.
Qed.

(** When the capture does not open no frame is ever returned and the
    attributes change only by the failed capture being kept. *)
Lemma get_frame_unopenable s p uc :
  wf vf s → is_opened vf = false →
  ∃ e, get_frame_at_position vf p uc s = (Raise e, failed s).
Proof.
  destruct s as [[cap tf fp cache] cl al]. unfold wf, attrs_ok, failed.
  cbn [self calls allocated _cap _total_frames _fps _frame_cache].
  intros [Hc Ha] Ho.
  destruct cap as [[o]|], tf as [n|], fp as [q|]; try done;
    destruct_and?; cbn [cap_opened] in *; subst; try congruence;
    destruct (0 <=? p) eqn:E1;
    repeat (run; rewrite ?Ho, ?E1, ?lookup_empty); eauto.
Qed.

(** *** The invariant *)

Lemma wf_fresh : wf vf fresh.
Proof.
  split; [|done]. intros p fd H. unfold fresh in H.
  cbn [self _frame_cache] in H. by rewrite lookup_empty in H.
Qed.

Lemma wf_calls r cl cl' al : wf vf (mkState r cl al) → wf vf (mkState r cl' al).
Proof. by intros [Hc Ha]. Qed.

Lemma wf_failed s : wf vf s → is_opened vf = false → wf vf (failed s).
Proof.
  destruct s as [[cap tf fp cache] cl al]. unfold wf, cache_ok, attrs_ok, failed.
  cbn [self allocated _cap _total_frames _fps _frame_cache].
  intros [Hc Ha] Ho.
  destruct cap as [[o]|], tf as [n|], fp as [q|]; try done;
    cbn [self allocated _cap _total_frames _fps _frame_cache cap_opened].
  destruct Ha as [Ha _]. congruence.
Qed.

Lemma wf_opened s : wf vf s → is_opened vf = true → wf vf (opened vf s).
Proof.
  destruct s as [[cap tf fp cache] cl al]. unfold wf, cache_ok, attrs_ok, opened.
  cbn [self allocated _cap _total_frames _fps _frame_cache].
  intros [Hc Ha] Ho.
  destruct cap as [[o]|], tf as [n|], fp as [q|]; try done;
    cbn [self allocated _cap _total_frames _fps _frame_cache cap_opened];
    split; done.
Qed.

Lemma wf_touched s : wf vf s → is_opened vf = true → wf vf (touched vf s).
Proof.
  intros Hs Ho. unfold touched. destruct (_total_frames (self s)); [done|].
  by apply wf_opened.
Qed.

Lemma touched_cache s : _frame_cache (self (touched vf s)) = _frame_cache (self s).
Proof.
  unfold touched, opened. destruct (_total_frames (self s)); [done|].
  by destruct (_cap (self s)).
Qed.

Lemma touched_allocated s : allocated (touched vf s) = allocated s.
Proof.
  unfold touched, opened. destruct (_total_frames (self s)); [done|].
  by destruct (_cap (self s)).
Qed.

Lemma touched_calls s :
  calls (touched vf s) = calls s ∨ calls (touched vf s) = calls s ++ [VideoCapture_new].
Proof.
  unfold touched, opened. destruct (_total_frames (self s)); [by left|].
  destruct (_cap (self s)); [by left|by right].
Qed.

Lemma touched_idemp s : touched vf (touched vf s) = touched vf s.
Proof.
  destruct s as [[[c|] [n|] fp cache] cl al]; reflexivity.
Qed.

Lemma preserves_ret {A} (a : A) : preserves vf (mret a).
Proof. by intros s Hs. Qed.

Lemma preserves_raise {A} e : preserves vf (raise e : M A).
Proof. by intros s Hs. Qed.

Lemma preserves_bind {A B} (m : M A) (f : A → M B) :
  preserves vf m → (∀ a, preserves vf (f a)) → preserves vf (m ≫= f).
Proof.
  intros Hm Hf s Hs. unfold mbind, M_bind. specialize (Hm s Hs).
  destruct (m s) as [[a|e] s']; cbn [snd] in *; [by apply Hf|done].
Qed.

Lemma preserves_get_self {B} (f : VideoReader → M B) :
  (∀ s, wf vf s → wf vf (f (self s) s).2) → preserves vf (get_self ≫= f).
Proof. intros Hf s Hs. unfold mbind, M_bind, get_self. by apply Hf. Qed.

Lemma preserves_do_call c : preserves vf (do_call c).
Proof. intros [r cl al] Hs. eapply wf_calls, Hs. Qed.

Lemma preserves_open : preserves vf (open vf).
Proof.
  intros s Hs. rewrite open_eq. destruct (_cap (self s)) eqn:Ec; [done|].
  destruct (is_opened vf) eqn:Ho; cbn [snd]; [by apply wf_opened|by apply wf_failed].
Qed.

Lemma preserves_close : preserves vf close.
Proof.
  intros [[cap tf fp cache] cl al]. unfold wf, cache_ok, attrs_ok.
  cbn [self allocated _cap _total_frames _fps _frame_cache].
  intros [Hc Ha].
  destruct cap as [[o]|], tf as [n|], fp as [q|]; try done; run;
    (split; [intros p fd H; by rewrite lookup_empty in H|]);
    cbn [self allocated _cap _total_frames _fps _frame_cache];
    destruct_and?; done.
Qed.

Lemma preserves_total_frames : preserves vf (total_frames vf).
Proof.
  unfold total_frames. apply preserves_get_self. intros s Hs.
  apply preserves_bind; [|intros; apply preserves_get_self; by intros|done].
  destruct (_total_frames (self s)); [apply preserves_ret|apply preserves_open].
Qed.

Lemma preserves_fps : preserves vf (fps vf).
Proof.
  unfold fps. apply preserves_get_self. intros s Hs.
  apply preserves_bind; [|intros; apply preserves_get_self; by intros|done].
  destruct (_fps (self s)); [apply preserves_ret|apply preserves_open].
Qed.

Lemma preserves_true_div n q : preserves vf (true_div n q).
Proof.
  unfold true_div. destruct n, q; try apply preserves_raise.
  destruct (Qeq_bool _ _); [apply preserves_raise|apply preserves_ret].
Qed.

Lemma wf_ext s s' :
  self s' = self s → allocated s' = allocated s → wf vf s → wf vf s'.
Proof.
  destruct s as [r cl al], s' as [r' cl' al']. cbn [self allocated].
  intros -> ->. apply wf_calls.
Qed.

Lemma opened_allocated s : allocated (opened vf s) = allocated s.
Proof. unfold opened. by destruct (_cap (self s)). Qed.

Lemma opened_cache s : _frame_cache (self (opened vf s)) = _frame_cache (self s).
Proof. unfold opened. by destruct (_cap (self s)). Qed.

Lemma opened_calls s :
  calls (opened vf s) = calls s ∨ calls (opened vf s) = calls s ++ [VideoCapture_new].
Proof. unfold opened. destruct (_cap (self s)); [by left|by right]. Qed.

(** The state after a decode that succeeded, with the new frame stored
    or not. *)
Lemma wf_decoded s p frame ts (uc : bool) cl :
  wf vf s → is_opened vf = true → 0 ≤ p < frame_count vf →
  wf vf (mkState
           (mkVideoReader (_cap (self (opened vf s))) (Some (frame_count vf))
              (Some (frame_rate vf))
              (if uc then <[p := mkFrameData (allocated s) frame p ts]>
                            (_frame_cache (self s))
               else _frame_cache (self s)))
           cl (S (allocated s))).
Proof.
  intros [Hc Ha] Ho Hp. split.
  - intros k fd. cbn [self _frame_cache allocated]. destruct uc.
    + rewrite lookup_insert. case_decide as Hk.
      * intros [= <-]. subst k. cbn [position ref]. split_and!; lia.
      * intros Hfd. destruct (Hc k fd Hfd) as (? & ? & ?). split_and!; lia.
    + intros Hfd. destruct (Hc k fd Hfd) as (? & ? & ?). split_and!; lia.
  - destruct s as [[cap tf fp cache] cl0 al]. unfold attrs_ok, opened in *.
    cbn [self allocated _cap _total_frames _fps _frame_cache] in *.
    destruct cap as [[o]|], tf as [n|], fp as [q|]; try done;
      cbn [self _cap _total_frames _fps cap_opened] in *; destruct_and?;
      try congruence; done.
Qed.

Lemma preserves_get_frame p uc : preserves vf (get_frame_at_position vf p uc).
Proof.
  intros s Hs. destruct (is_opened vf) eqn:Ho.
  - rewrite get_frame_eq by done. unfold get_frame_model.
    destruct ((0 <=? p) && (p <? frame_count vf)) eqn:E;
      [|by apply wf_touched].
    apply andb_prop in E as [E1%Z.leb_le E2%Z.ltb_lt].
    destruct (if uc then _ else _); [by apply wf_touched|].
    assert (wf vf (mkState (self (opened vf s))
                     (calls (opened vf s) ++ [cap_set p; cap_read]) (allocated s))).
    { eapply (wf_ext (opened vf s)); [done|by rewrite opened_allocated|].
      by apply wf_opened. }
    destruct (read_at vf p); [|done].
    destruct (Qeq_bool _ _); [done|].
    cbn [snd]. by apply wf_decoded.
  - destruct (get_frame_unopenable s p uc Hs Ho) as [e ->]. by apply wf_failed.
Qed.

(** On a healthy video every position inside it is delivered. *)
Lemma get_frame_ok s p uc :
  healthy vf → wf vf s → 0 ≤ p < frame_count vf →
  ∃ fd s', get_frame_at_position vf p uc s = (Ok fd, s') ∧
           position fd = p ∧ wf vf s'.
Proof.
  intros (Ho & Hread & Hrate) Hs Hp.
  pose proof (preserves_get_frame p uc s Hs) as Hwf.
  rewrite get_frame_eq in * by done. unfold get_frame_model in *.
  replace ((0 <=? p) && (p <? frame_count vf)) with true in *
    by (symmetry; apply andb_true_intro; split; [apply Z.leb_le|apply Z.ltb_lt]; lia).
  destruct (if uc then _ else _) as [fd|] eqn:Ec.
  - exists fd, (touched vf s). split_and!; [done| |done].
    destruct uc; [|done]. by apply Hs in Ec as (_ & ? & _).
  - destruct (Hread p Hp) as [fr Hfr]. rewrite Hfr, Hrate in *.
    eexists _, _. split_and!; [reflexivity|reflexivity|done].
Qed.

(** *** [get_frames] *)

Lemma preserves_get_each l uc : preserves vf (get_each vf l uc).
Proof.
  induction l as [|p l IH]; cbn [get_each]; [apply preserves_ret|].
  apply preserves_bind; [apply preserves_get_frame|]. intros fd.
  apply preserves_bind; [apply IH|]. intros frames. apply preserves_ret.
Qed.

Lemma get_each_ok l uc s :
  healthy vf → wf vf s → Forall (λ p, 0 ≤ p < frame_count vf) l →
  ∃ frames s', get_each vf l uc s = (Ok frames, s') ∧
               position <$> frames = l ∧ wf vf s'.
Proof.
  intros Hh Hs Hl. revert s Hs.
  induction Hl as [|p l Hp Hl IH]; intros s Hs; cbn [get_each].
  - by exists [], s.
  - destruct (get_frame_ok s p uc Hh Hs Hp) as (fd & s1 & E1 & Hfd & Hs1).
    destruct (IH s1 Hs1) as (frames & s2 & E2 & Hfr & Hs2).
    exists (fd :: frames), s2. split_and!; [|by rewrite fmap_cons, Hfd, Hfr|done].
    erewrite bind_ok by exact E1. erewrite bind_ok by exact E2. reflexivity.
Qed.

(** [_flatten_positions] unfolds as the loop of the source reads. *)
Lemma _flatten_positions_cons item rest :
  _flatten_positions (item :: rest) =
    match item with
    | PList l => _flatten_positions l
    | PInt z => [z]
    end ++ _flatten_positions rest.
Proof. by destruct item. Qed.

Lemma _flatten_positions_ints (l : list Z) : _flatten_positions (PInt <$> l) = l.
Proof.
  induction l as [|z l IH]; [done|].
  rewrite fmap_cons, _flatten_positions_cons, IH. reflexivity.
Qed.

Example _flatten_positions_example :
  _flatten_positions [PInt 5; PList [PInt 1; PList []; PList [PInt 5; PInt 3]]; PInt 1]
  = [5; 1; 5; 3; 1].
Proof. reflexivity. Qed.

Lemma preserves_get_frames l uc : preserves vf (get_frames vf l uc).
Proof. apply preserves_get_each. Qed.

Lemma get_frames_ok l uc s :
  healthy vf → wf vf s →
  Forall (λ p, 0 ≤ p < frame_count vf) (_flatten_positions l) →
  ∃ frames s', get_frames vf l uc s = (Ok frames, s') ∧
               position <$> frames = sorted_set (_flatten_positions l) ∧
               wf vf s'.
Proof.
  intros Hh Hs Hl. unfold get_frames.
  by apply get_each_ok, Forall_sorted_set.
Qed.

(** *** The other retrieval operations *)

Lemma preserves_expand_ranges rs step : preserves vf (expand_ranges rs step).
Proof.
  induction rs as [|[a b] rs IH]; cbn [expand_ranges]; [apply preserves_ret|].
  destruct (if b <? a then (b, a) else (a, b)) as [a' b'].
  apply preserves_bind.
  - destruct (step =? 0); [apply preserves_raise|apply preserves_ret].
  - intros _. apply preserves_bind; [apply IH|]. intros ?. apply preserves_ret.
Qed.

Lemma preserves_get_frames_from_ranges rs step uc :
  preserves vf (get_frames_from_ranges vf rs step uc).
Proof.
  apply preserves_bind; [apply preserves_expand_ranges|].
  intros l. apply preserves_get_frames.
Qed.

Lemma preserves_expand_around ps h : preserves vf (expand_around vf ps h).
Proof.
  induction ps as [|pos ps IH]; cbn [expand_around]; [apply preserves_ret|].
  apply preserves_bind; [apply preserves_total_frames|].
  intros [n|]; [|apply preserves_raise].
  apply preserves_bind; [apply IH|]. intros ?. apply preserves_ret.
Qed.

Lemma preserves_get_frames_around_positions ps w uc :
  preserves vf (get_frames_around_positions vf ps w uc).
Proof.
  apply preserves_bind; [apply preserves_expand_around|].
  intros l. apply preserves_get_frames.
Qed.

Lemma preserves_save_each d t fs frames : preserves vf (save_each d t fs frames).
Proof.
  induction frames as [|fd frames IH]; cbn [save_each]; [apply preserves_ret|].
  destruct (t (position fd)); [|apply preserves_raise].
  apply preserves_bind; [apply preserves_do_call|]. intros _.
  destruct (imwrite_raises fs d _); [apply preserves_raise|apply IH].
Qed.

Lemma preserves_extract_frames_batch l d t fs :
  preserves vf (extract_frames_batch vf l d t fs).
Proof.
  apply preserves_bind; [apply preserves_get_frames|]. intros frames.
  apply preserves_bind; [|intros _; apply preserves_ret].
  destruct d as [d|]; [|apply preserves_ret].
  apply preserves_bind; [apply preserves_do_call|]. intros _.
  apply preserves_bind; [|intros _; apply preserves_save_each].
  destruct (mkdir_raises fs d); [apply preserves_raise|apply preserves_ret].
Qed.

Lemma preserves_get_video_info : preserves vf (get_video_info vf).
Proof.
  unfold get_video_info. apply preserves_get_self. intros s Hs.
  apply preserves_bind; [|intros _|done].
  { destruct (_cap (self s)); [apply preserves_ret|apply preserves_open]. }
  apply preserves_bind; [apply preserves_total_frames|]. intros t.
  apply preserves_bind; [apply preserves_fps|]. intros q.
  apply preserves_bind; [apply preserves_total_frames|]. intros t'.
  apply preserves_bind; [apply preserves_fps|]. intros q'.
  apply preserves_bind; [apply preserves_true_div|]. intros d.
  apply preserves_get_self. intros s' Hs'.
  destruct (_cap (self s')); [by apply preserves_ret|by apply preserves_raise].
Qed.

Lemma wf_run_op o s : wf vf s → wf vf (run_op vf o s).
Proof.
  intros Hs. destruct o; cbn [run_op].
  - by apply preserves_open.
  - by apply preserves_close.
  - by apply preserves_open.
  - by apply preserves_close.
  - by apply preserves_total_frames.
  - by apply preserves_fps.
  - by apply preserves_get_frame.
  - by apply preserves_get_frames.
  - by apply preserves_get_frames_from_ranges.
  - by apply preserves_get_frames_around_positions.
  - by apply preserves_extract_frames_batch.
  - by apply preserves_get_video_info.
Qed.

Lemma wf_run_ops os s : wf vf s → wf vf (run_ops vf os s).
Proof.
  revert s. induction os as [|o os IH]; intros s Hs; [done|].
  cbn [run_ops foldl]. apply IH. by apply wf_run_op.
Qed.

(** A cache with an entry belongs to a reader that knows the frame count. *)
Lemma wf_cached_total s p fd :
  wf vf s → _frame_cache (self s) !! p = Some fd →
  _total_frames (self s) = Some (frame_count vf).
Proof.
  destruct s as [[cap tf fp cache] cl al]. unfold wf, attrs_ok.
  cbn [self _cap _total_frames _fps _frame_cache].
  intros [Hc Ha] Hp.
  destruct cap as [[o]|], tf as [n|], fp as [q|]; try done;
    destruct_and?; subst; try done; by rewrite lookup_empty in Hp.
Qed.

(** The centers of [get_frames_around_positions] expand to their windows;
    the property is read once per center. *)
Lemma expand_around_eq ps h s :
  wf vf s → is_opened vf = true →
  expand_around vf ps h s =
    (Ok (concat (around_window (frame_count vf) h <$> ps)),
     match ps with [] => s | _ => touched vf s end).
Proof.
  intros Hs Ho. revert s Hs.
  induction ps as [|pos ps IH]; intros s Hs; cbn [expand_around]; [done|].
  cbv zeta. erewrite bind_ok by (by apply total_frames_eq). cbv beta iota.
  erewrite bind_ok by (apply IH; by apply wf_touched).
  unfold mret, M_ret. f_equal. destruct ps; [done|apply touched_idemp].
Qed.

Lemma around_window_in_range n h pos x :
  x ∈ around_window n h pos → 0 ≤ x < n ∧ pos - h ≤ x ≤ pos + h.
Proof. unfold around_window. rewrite elem_of_range. lia. Qed.

Lemma around_window_length n h pos :
  h ≤ pos → pos + h ≤ n - 1 →
  length (around_window n h pos) = Z.to_nat (2 * h + 1).
Proof.
  intros H1 H2. unfold around_window. rewrite length_range. f_equal. lia.
Qed.

Lemma twice_half_plus_one w :
  2 * (w `div` 2) + 1 = if Z.odd w then w else w + 1.
Proof.
  destruct (Z.odd w) eqn:E.
  - apply Z.odd_spec in E as [k ->]. Z.div_mod_to_equations. lia.
  - rewrite <- Z.negb_even in E. apply negb_false_iff, Z.even_spec in E as [k ->].
    Z.div_mod_to_equations. lia.
Qed.

(** Whatever the file, a frame that is returned sits at the position
    asked for, and so do the frames of a batch. *)
Lemma bind_inv_ok {A B} (m : M A) (f : A → M B) s b s' :
  (m ≫= f) s = (Ok b, s') → ∃ a s1, m s = (Ok a, s1) ∧ f a s1 = (Ok b, s').
Proof.
  unfold mbind, M_bind. destruct (m s) as [[a|e] s1]; [eauto|discriminate].
Qed.

Lemma get_frame_position s p uc fd s' :
  wf vf s → get_frame_at_position vf p uc s = (Ok fd, s') →
  position fd = p ∧ 0 ≤ p < frame_count vf.
Proof.
  intros Hs E. destruct (is_opened vf) eqn:Ho.
  - rewrite get_frame_eq in E by done. unfold get_frame_model in E.
    destruct ((0 <=? p) && (p <? frame_count vf)) eqn:Hin; [|discriminate E].
    apply andb_prop in Hin as [?%Z.leb_le ?%Z.ltb_lt]. split; [|lia].
    destruct (if uc then _ else _) as [fd0|] eqn:Ec.
    + injection E as <- _. destruct uc; [|discriminate Ec].
      by apply Hs in Ec as (_ & ? & _).
    + destruct (read_at vf p); [|discriminate E].
      destruct (Qeq_bool _ _); [discriminate E|]. by injection E as <- _.
  - destruct (get_frame_unopenable s p uc Hs Ho) as [e He].
    rewrite He in E. discriminate E.
Qed.

Lemma get_each_positions l uc s frames s' :
  wf vf s → get_each vf l uc s = (Ok frames, s') → position <$> frames = l.
Proof.
  revert s frames s'. induction l as [|p l IH]; intros s frames s' Hs; cbn [get_each].
  - by intros [= <- _].
  - intros (fd & s1 & E1 & E)%bind_inv_ok.
    apply bind_inv_ok in E as (rest & s2 & E2 & [= <- <-]).
    apply get_frame_position in E1 as Hfd; [|done]. destruct Hfd as [Hfd _].
    assert (wf vf s1) as Hs1.
    { pose proof (preserves_get_frame p uc s Hs) as H. by rewrite E1 in H. }
    rewrite fmap_cons, Hfd. f_equal. by eapply IH.
Qed.

(** *** The claims about the reader *)

(** C4: [get_frames] on an empty specification returns the empty list and
    leaves the reader as it was. Whatever the file, when [get_frames]
    returns, the positions of its frames are exactly
    [sorted(set(flatten))]. On a healthy video, for a position
    specification nested to any depth whose integers all lie inside the
    video, it returns frames whose positions are exactly
    [sorted(set(flatten))]: strictly ascending, each requested position
    once, and the same for any other specification that names the same
    positions in another order or multiplicity. *)
Theorem get_frames_sorted_unique s (L : list Positions) (uc : bool) :
  get_frames vf [] uc s = (Ok [], s) ∧
  (wf vf s → ∀ frames s',
     get_frames vf L uc s = (Ok frames, s') →
     position <$> frames = sorted_set (_flatten_positions L)) ∧
  (healthy vf → wf vf s →
   Forall (λ p, 0 ≤ p < frame_count vf) (_flatten_positions L) →
   ∃ frames s',
     get_frames vf L uc s = (Ok frames, s') ∧
     position <$> frames = sorted_set (_flatten_positions L) ∧
     StronglySorted Z.lt (position <$> frames) ∧
     (∀ p, p ∈ (position <$> frames) ↔ p ∈ _flatten_positions L) ∧
     length frames = size (list_to_set (_flatten_positions L) : gset Z) ∧
     (∀ L' s0, wf vf s0 →
        (∀ p, p ∈ _flatten_positions L' ↔ p ∈ _flatten_positions L) →
        ∃ frames' s0',
          get_frames vf L' uc s0 = (Ok frames', s0') ∧
          position <$> frames' = position <$> frames)).
Proof.
  split; [reflexivity|]. split.
  { intros Hs frames s'. by apply get_each_positions. }
  intros Hh Hs Hl.
  destruct (get_frames_ok L uc s Hh Hs Hl) as (frames & s' & E & Hpos & _).
  exists frames, s'. split_and!; try done.
  - rewrite Hpos. apply sorted_set_ascending.
  - intros p. rewrite Hpos. apply elem_of_sorted_set.
  - rewrite <- length_sorted_set, <- Hpos. by rewrite length_fmap.
  - intros L' s0 Hs0 Hsame.
    destruct (get_frames_ok L' uc s0 Hh Hs0) as (frames' & s0' & E' & Hpos' & _).
    { rewrite Forall_forall in Hl |- *. intros p Hp. by apply Hl, Hsame. }
    exists frames', s0'. split; [done|].
    rewrite Hpos, Hpos'. by apply sorted_set_ext.
Qed.

(** C5, amended: on a healthy video [get_frames_around_positions] expands
    every center [c] to the positions from [max(0, c - w // 2)] to
    [min(total_frames - 1, c + w // 2)] and returns the deduplicated
    ascending union of these windows; a center at least [w // 2] away from
    both ends contributes [2 * (w // 2) + 1] candidate positions, which is
    [w] for an odd [w] and [w + 1] for an even one. *)
Theorem around_positions_windows s (ps : list Z) (w : Z) (uc : bool) :
  healthy vf → wf vf s →
  let h := w `div` 2 in
  ∃ frames s',
    get_frames_around_positions vf ps w uc s = (Ok frames, s') ∧
    position <$> frames =
      sorted_set (concat (around_window (frame_count vf) h <$> ps)) ∧
    StronglySorted Z.lt (position <$> frames) ∧
    (∀ x, x ∈ (position <$> frames) ↔
          ∃ c, c ∈ ps ∧
               Z.max 0 (c - h) ≤ x ≤ Z.min (frame_count vf - 1) (c + h)) ∧
    (∀ c, h ≤ c → c + h ≤ frame_count vf - 1 →
          length (around_window (frame_count vf) h c) = Z.to_nat (2 * h + 1)) ∧
    2 * h + 1 = (if Z.odd w then w else w + 1).
Proof.
  intros Hh Hs h. pose proof Hh as (Ho & _ & _).
  unfold get_frames_around_positions. fold h.
  pose proof (expand_around_eq ps h s Hs Ho) as Ex.
  set (all := concat (around_window (frame_count vf) h <$> ps)) in *.
  set (s1 := match ps with [] => s | _ => touched vf s end) in *.
  assert (wf vf s1) as Hs1 by (subst s1; destruct ps; [done|by apply wf_touched]).
  destruct (get_frames_ok (PInt <$> all) uc s1 Hh Hs1) as (frames & s' & E & Hpos & _).
  { rewrite _flatten_positions_ints. apply Forall_forall. intros x Hx.
    subst all. apply elem_of_concat in Hx as (win & Hx & Hwin).
    apply list_elem_of_fmap in Hwin as (c & -> & _).
    by apply around_window_in_range in Hx as [? _]. }
  rewrite _flatten_positions_ints in Hpos.
  exists frames, s'. split_and!.
  - erewrite bind_ok by exact Ex. exact E.
  - exact Hpos.
  - rewrite Hpos. apply sorted_set_ascending.
  - intros x. rewrite Hpos, elem_of_sorted_set. subst all.
    rewrite elem_of_concat. split.
    + intros (win & Hx & (c & -> & Hc)%list_elem_of_fmap).
      exists c. split; [done|]. unfold around_window in Hx.
      apply elem_of_range in Hx. lia.
    + intros (c & Hc & Hx). exists (around_window (frame_count vf) h c).
      split; [unfold around_window; apply elem_of_range; lia|].
      apply list_elem_of_fmap. by exists c.
  - intros c. apply around_window_length.
  - apply twice_half_plus_one.
Qed.

(** C6: on a reader of a video that opens, for a position inside the
    video: a call with [use_cache=True] that returned a frame is followed
    by a second such call that returns the same object and changes
    nothing, so no call reaches the decoder (and on a healthy video the
    first call does return a frame); a call with [use_cache=False] seeks to
    the position and reads, opening a capture first when there is none,
    leaves the cache as it was, and a frame it returns is a new object,
    none of those in the cache. The first call with [use_cache=True]
    leaves the frame it returns in the cache under its position and
    touches no other entry: when the position was cached it returns that
    entry without a seek or a read, otherwise it seeks, reads and stores a
    new object holding the image of the file. On a healthy video the call
    with [use_cache=False] returns such a new object too. *)
Theorem cache_identity s p :
  wf vf s → is_opened vf = true → 0 ≤ p < frame_count vf →
  (∀ fd s1, get_frame_at_position vf p true s = (Ok fd, s1) →
            get_frame_at_position vf p true s1 = (Ok fd, s1)) ∧
  (healthy vf → ∃ fd s1, get_frame_at_position vf p true s = (Ok fd, s1)) ∧
  (∃ r s' pre,
     get_frame_at_position vf p false s = (r, s') ∧
     (pre = [] ∨ pre = [VideoCapture_new]) ∧
     calls s' = calls s ++ pre ++ [cap_set p; cap_read] ∧
     _frame_cache (self s') = _frame_cache (self s) ∧
     (∀ fd, r = Ok fd →
        read_at vf p = Some (frame fd) ∧ position fd = p ∧
        ref fd = allocated s ∧
        ∀ q fd', _frame_cache (self s) !! q = Some fd' → ref fd' ≠ ref fd)) ∧
  (∀ fd s1, get_frame_at_position vf p true s = (Ok fd, s1) →
     _frame_cache (self s1) !! p = Some fd ∧
     (∀ q, q ≠ p → _frame_cache (self s1) !! q = _frame_cache (self s) !! q) ∧
     (∀ fd0, _frame_cache (self s) !! p = Some fd0 →
        fd = fd0 ∧ allocated s1 = allocated s ∧
        (calls s1 = calls s ∨ calls s1 = calls s ++ [VideoCapture_new])) ∧
     (_frame_cache (self s) !! p = None →
        ∃ pre, (pre = [] ∨ pre = [VideoCapture_new]) ∧
               calls s1 = calls s ++ pre ++ [cap_set p; cap_read] ∧
               read_at vf p = Some (frame fd) ∧ position fd = p ∧
               ref fd = allocated s ∧ allocated s1 = S (allocated s))) ∧
  (healthy vf →
   ∃ fd s', get_frame_at_position vf p false s = (Ok fd, s') ∧
            read_at vf p = Some (frame fd) ∧ position fd = p ∧
            ref fd = allocated s).
Proof.
  intros Hs Ho Hp.
  assert ((0 <=? p) && (p <? frame_count vf) = true) as Hin
    by (apply andb_true_intro; split; [apply Z.leb_le|apply Z.ltb_lt]; lia).
  split_and!; [| | | |].
  - intros fd s1 E.
    assert (wf vf s1) as Hs1.
    { pose proof (preserves_get_frame p true s Hs) as H. by rewrite E in H. }
    rewrite get_frame_eq in E |- * by done. unfold get_frame_model in *.
    rewrite Hin in *.
    destruct (_frame_cache (self s) !! p) as [fd0|] eqn:Ec.
    + injection E as <- <-. rewrite touched_cache, Ec, touched_idemp. reflexivity.
    + destruct (read_at vf p); [|discriminate E].
      destruct (Qeq_bool _ _); [discriminate E|].
      injection E as <- <-. cbn [self _frame_cache].
      rewrite lookup_insert_eq. reflexivity.
  - intros Hh. destruct (get_frame_ok s p true Hh Hs Hp) as (fd & s1 & E & _).
    eauto.
  - rewrite get_frame_eq by done. unfold get_frame_model. rewrite Hin.
    destruct (opened_calls s) as [Hcl|Hcl].
    + destruct (read_at vf p) as [fr|] eqn:Er; [destruct (Qeq_bool _ _)|];
        eexists _, _, []; (split; [reflexivity|]);
        (split; [by left|]); cbn [calls self _frame_cache];
        rewrite ?opened_cache, Hcl; split_and!; try done.
      intros fd [= <-]. cbn [frame position ref]. split_and!; try done.
      intros q fd' Hq. apply Hs in Hq as (_ & _ & Hq). lia.
    + destruct (read_at vf p) as [fr|] eqn:Er; [destruct (Qeq_bool _ _)|];
        eexists _, _, [VideoCapture_new]; (split; [reflexivity|]);
        (split; [by right|]); cbn [calls self _frame_cache];
        rewrite ?opened_cache, Hcl, <- ?app_assoc; split_and!; try done.
      intros fd [= <-]. cbn [frame position ref]. split_and!; try done.
      intros q fd' Hq. apply Hs in Hq as (_ & _ & Hq). lia.
  - intros fd s1 E. rewrite get_frame_eq in E by done.
    unfold get_frame_model in E. rewrite Hin in E.
    destruct (_frame_cache (self s) !! p) as [fd0|] eqn:Ec.
    + injection E as <- <-. rewrite touched_cache, touched_allocated.
      split_and!; [done|done| |done].
      intros fd0' [= <-]. split_and!; [done|done|apply touched_calls].
    + destruct (read_at vf p) as [img|] eqn:Er; [|discriminate E].
      destruct (Qeq_bool _ _); [discriminate E|].
      injection E as <- <-. cbn [self _frame_cache calls allocated frame position ref].
      split_and!; [apply lookup_insert_eq| |done|].
      * intros q Hq. by rewrite lookup_insert_ne.
      * intros _. destruct (opened_calls s) as [Hcl|Hcl]; rewrite Hcl.
        -- exists []. split_and!; try done. by left.
        -- exists [VideoCapture_new]. rewrite <- app_assoc.
           split_and!; try done. by right.
  - intros (_ & Hread & Hrate). rewrite get_frame_eq by done.
    unfold get_frame_model. rewrite Hin.
    destruct (Hread p Hp) as [img Himg]. rewrite Himg, Hrate.
    eexists _, _. split; [reflexivity|]. done.
Qed.

(** C7: on a reader of a video that opens, a position below 0 or at or
    beyond [total_frames] makes [get_frame_at_position] raise the
    out-of-range [ValueError]; nothing was sought or read (the only call
    that may have been made is the creation of the capture by the
    [total_frames] property), no frame was built and the cache is as it
    was. For a position inside the video the call does not end in that
    error. *)
Theorem out_of_range_raises s p (uc : bool) :
  wf vf s → is_opened vf = true →
  (¬ (0 ≤ p < frame_count vf) →
   ∃ s', get_frame_at_position vf p uc s = (Raise ValueError_range, s') ∧
         _frame_cache (self s') = _frame_cache (self s) ∧
         allocated s' = allocated s ∧
         (calls s' = calls s ∨ calls s' = calls s ++ [VideoCapture_new])) ∧
  (0 ≤ p < frame_count vf →
   (get_frame_at_position vf p uc s).1 ≠ Raise ValueError_range).
Proof.
  intros Hs Ho. rewrite get_frame_eq by done. unfold get_frame_model. split.
  - intros Hp.
    replace ((0 <=? p) && (p <? frame_count vf)) with false.
    + exists (touched vf s). split_and!; [done|apply touched_cache|
        apply touched_allocated|apply touched_calls].
    + symmetry. apply andb_false_iff.
      destruct (Z.leb_spec 0 p); [|by left].
      destruct (Z.ltb_spec p (frame_count vf)); [lia|by right].
  - intros Hp.
    replace ((0 <=? p) && (p <? frame_count vf)) with true
      by (symmetry; apply andb_true_intro; split;
          [apply Z.leb_le|apply Z.ltb_lt]; lia).
    destruct (if uc then _ else _); [done|].
    destruct (read_at vf p); [|done]. by destruct (Qeq_bool _ _).
Qed.

(** C8: constructing a reader for a path that does not exist raises
    [FileNotFoundError] and makes no call to the decoder; for a path that
    exists it returns a reader without a capture, again without any call.
    The capture is created by [open] or by the first read of
    [total_frames] or [fps]. *)
Theorem init_defers_session :
  (path_exists vf = false → __init__ vf = (Raise FileNotFoundError, [])) ∧
  (path_exists vf = true →
   ∃ r, __init__ vf = (Ok r, []) ∧ _cap r = None ∧ self fresh = r ∧
        calls fresh = [] ∧
        calls (open vf fresh).2 = [VideoCapture_new] ∧
        calls (total_frames vf fresh).2 = [VideoCapture_new] ∧
        calls (fps vf fresh).2 = [VideoCapture_new]).
Proof.
  unfold __init__. split; intros ->; cbn [negb]; [done|].
  eexists. split; [reflexivity|]. split_and!; try reflexivity;
    unfold fresh; run; destruct (is_opened vf); run; reflexivity.
Qed.

(** C10: after any sequence of operations on a newly constructed reader
    every key of the frame cache lies in [0, total_frames), the frame
    count the reader holds being that of the file; and [close] leaves the
    cache empty from any state, also when there is no capture, in which
    case it returns without a call to the decoder. *)
Theorem cache_keys_in_range (os : list op) :
  let s := run_ops vf os fresh in
  (∀ k fd, _frame_cache (self s) !! k = Some fd →
     0 ≤ k < frame_count vf ∧
     _total_frames (self s) = Some (frame_count vf)) ∧
  (∀ s0, _frame_cache (self (close s0).2) = ∅) ∧
  (∀ s0, _cap (self s0) = None →
     (close s0).1 = Ok () ∧ _frame_cache (self (close s0).2) = ∅ ∧
     calls (close s0).2 = calls s0).
Proof.
  intros s.
  assert (wf vf s) as Hs by apply wf_run_ops, wf_fresh.
  split_and!.
  - intros k fd Hk. split; [by apply Hs in Hk as [? _]|].
    by eapply wf_cached_total.
  - apply close_cache.
  - intros s0 Hc. by rewrite close_no_session.
Qed.

End ReaderProps.

(** ** The claims on the hundred-frame video of the tests *)

Section OnVideo100.

Import Reader.

Lemma healthy_video100 : healthy video100.
Proof.
  split_and!; [reflexivity| |reflexivity].
  intros p Hp. cbn [read_at video100 frame_count] in *.
  destruct (Z.leb_spec 0 p); [|lia]. destruct (Z.ltb_spec p 100); [|lia].
  by eexists.
Qed.

Lemma get_frames_sorted_unique_witness :
  ∃ frames s',
    get_frames video100
      [PInt 5; PList [PInt 1; PInt 5; PList [PInt 3]]; PInt 1] true fresh
    = (Ok frames, s') ∧
    position <$> frames = [1; 3; 5].
Proof.
  destruct (get_frames_sorted_unique video100 fresh
              [PInt 5; PList [PInt 1; PInt 5; PList [PInt 3]]; PInt 1] true)
    as (_ & _ & H).
  destruct H as (frames & s' & E & Hpos & _).
  - apply healthy_video100.
  - apply wf_fresh.
  - cbn. repeat constructor; lia.
  - exists frames, s'. split; [exact E|]. rewrite Hpos. vm_compute. reflexivity.
Defined.

(** C5 as stated fails: with [window_size = 4] the center 50 of the
    hundred-frame video, far from both ends, yields five frames, not
    four. *)
Lemma around_even_window_counterexample :
  ¬ ∃ frames s',
      get_frames_around_positions video100 [50] 4 true fresh = (Ok frames, s') ∧
      length frames = 4%nat.
Proof.
  intros (frames & s' & E & Hl).
  apply (f_equal fst) in E. vm_compute in E. injection E as <-.
  discriminate Hl.
Qed.

Lemma around_positions_windows_witness :
  ∃ frames s',
    get_frames_around_positions video100 [2; 97] 5 true fresh = (Ok frames, s') ∧
    position <$> frames = [0; 1; 2; 3; 4; 95; 96; 97; 98; 99].
Proof.
  destruct (around_positions_windows video100 fresh [2; 97] 5 true)
    as (frames & s' & E & Hpos & _).
  - apply healthy_video100.
  - apply wf_fresh.
  - exists frames, s'. split; [exact E|]. rewrite Hpos. vm_compute. reflexivity.
Defined.

Lemma cache_identity_witness :
  ∃ fd s1,
    get_frame_at_position video100 25 true fresh = (Ok fd, s1) ∧
    get_frame_at_position video100 25 true s1 = (Ok fd, s1) ∧
    _frame_cache (self s1) !! 25 = Some fd ∧
    calls s1 = [VideoCapture_new; cap_set 25; cap_read] ∧
    ∃ fd' s', get_frame_at_position video100 25 false s1 = (Ok fd', s') ∧
              ref fd' ≠ ref fd.
Proof.
  destruct (cache_identity video100 fresh 25) as (H1 & H2 & _ & H4 & _).
  - apply wf_fresh.
  - reflexivity.
  - cbn. lia.
  - destruct (H2 healthy_video100) as (fd & s1 & E).
    destruct (H4 fd s1 E) as (Hstored & _).
    exists fd, s1. split; [exact E|]. split; [exact (H1 fd s1 E)|].
    split; [exact Hstored|].
    assert (wf video100 s1) as Hs1.
    { pose proof (preserves_get_frame video100 25 true fresh (wf_fresh video100)) as H.
      by rewrite E in H. }
    split; [vm_compute in E; by injection E as _ <-|].
    destruct (cache_identity video100 s1 25 Hs1) as (_ & _ & H3 & _ & H5);
      [reflexivity|cbn; lia|].
    destruct (H5 healthy_video100) as (fd' & s' & E' & _ & _ & Href).
    destruct H3 as (r & s'' & pre & E'' & _ & _ & _ & Hfresh).
    rewrite E' in E''. injection E'' as <- <-.
    exists fd', s'. split; [exact E'|].
    destruct (Hfresh fd' eq_refl) as (_ & _ & _ & Hne).
    intros Heq. by apply (Hne 25 fd Hstored).
Defined.

Lemma out_of_range_raises_witness :
  (∃ s', get_frame_at_position video100 100 true fresh
         = (Raise ValueError_range, s') ∧
         _frame_cache (self s') = ∅) ∧
  (get_frame_at_position video100 99 true fresh).1 ≠ Raise ValueError_range.
Proof.
  destruct (out_of_range_raises video100 fresh 100 true) as [H _];
    [apply wf_fresh|reflexivity|].
  destruct (out_of_range_raises video100 fresh 99 true) as [_ H'];
    [apply wf_fresh|reflexivity|].
  split.
  - destruct H as (s' & E & Hc & _); [cbn; lia|].
    exists s'. split; [exact E|exact Hc].
  - apply H'. cbn. lia.
Defined.

Lemma init_defers_session_witness :
  __init__ missing_video = (Raise FileNotFoundError, []) ∧
  ∃ r, __init__ video100 = (Ok r, []) ∧ _cap r = None.
Proof.
  split.
  - apply (init_defers_session missing_video). reflexivity.
  - destruct (init_defers_session video100) as [_ H].
    destruct H as (r & E & Hc & _); [reflexivity|].
    exists r. split; [exact E|exact Hc].
Defined.

Lemma cache_keys_in_range_witness :
  ∃ fd,
    _frame_cache (self (run_ops video100 [op_get_frame_at_position 7 true] fresh))
      !! 7 = Some fd ∧
    0 ≤ 7 < frame_count video100.
Proof.
  eexists. split; [vm_compute; reflexivity|].
  eapply (cache_keys_in_range video100 [op_get_frame_at_position 7 true]).
  vm_compute. reflexivity.
Defined.

End OnVideo100.

(** ** The dataset: length, provenance and placement of the windows *)

Section DatasetProps.

Import Dataloader Loader.

Implicit Types (self : AutoshotDataset) (vd : VideoData) (b : Boundary).

Lemma variations_length n self vd b base rand k :
  length (variations n self vd b base rand k).1 = n ∧
  (variations n self vd b base rand k).2 = (k + n)%nat.
Proof.
  revert k. induction n as [|n IH]; intros k; cbn [variations].
  - split; [done|]. cbn. lia.
  - destruct (IH (S k)) as [IH1 IH2].
    destruct (variations n self vd b base rand (S k)) as [rest k'].
    cbn [fst snd] in *. rewrite length_app, emit_sequence_eq. cbn [length].
    split; lia.
Qed.

Lemma boundary_sequences_length self vd b rand k :
  length (boundary_sequences self vd b rand k).1 = trials self.
Proof.
  unfold boundary_sequences, trials. destruct (0 <? random_offset_range self).
  - apply variations_length.
  - cbn [fst]. by rewrite emit_sequence_eq.
Qed.

Lemma boundaries_sequences_length self vd bs rand k :
  length (boundaries_sequences self vd bs rand k).1 = (trials self * length bs)%nat.
Proof.
  revert k. induction bs as [|b bs IH]; intros k; cbn [boundaries_sequences].
  - cbn. lia.
  - pose proof (boundary_sequences_length self vd b rand k) as H1.
    destruct (boundary_sequences self vd b rand k) as [here k1].
    specialize (IH k1).
    destruct (boundaries_sequences self vd bs rand k1) as [rest k2].
    cbn [fst length] in *. rewrite length_app, H1, IH. lia.
Qed.

Lemma videos_sequences_length self vds rand k :
  length (videos_sequences self vds rand k).1 =
    (trials self * sum_list ((λ vd, length (frame_boundaries vd)) <$> vds))%nat.
Proof.
  revert k. induction vds as [|vd vds IH]; intros k; cbn [videos_sequences].
  - cbn. lia.
  - pose proof (boundaries_sequences_length self vd (frame_boundaries vd) rand k) as H1.
    destruct (boundaries_sequences self vd (frame_boundaries vd) rand k) as [here k1].
    specialize (IH k1).
    destruct (videos_sequences self vds rand k1) as [rest k2].
    cbn [fst] in *. rewrite length_app, H1, IH, fmap_cons.
    cbn [sum_list sum_list_with]. unfold id. lia.
Qed.

(** X1: the length of the dataset is the number of boundaries of the
    valid videos, times three when the jitter range is positive; it does
    not depend on the frame counts, on the sequence length or on the
    draws. *)
Theorem dataset_length self rand :
  __len__ (_generate_sequences self rand) =
    (trials self *
     sum_list ((λ vd, length (frame_boundaries vd)) <$> valid_videos self))%nat.
Proof. apply videos_sequences_length. Qed.

Lemma elem_of_filter_valid_videos min_shots on_disk annotations vd :
  vd ∈ _filter_valid_videos min_shots on_disk annotations ↔
  vd ∈ annotations ∧ min_shots ≤ num_shots vd ∧
  on_disk (filename vd) = true ∧ frame_boundaries vd ≠ [].
Proof.
  induction annotations as [|a l IH]; cbn [_filter_valid_videos].
  - split; [intros []%elem_of_nil|intros [[]%elem_of_nil _]].
  - rewrite elem_of_cons.
    destruct (Z.ltb_spec (num_shots a) min_shots) as [Hn|Hn].
    { rewrite IH. split; [intros (? & ? & ? & ?); auto|].
      intros ([Ha|?] & ? & ? & ?); [subst; lia|done]. }
    destruct (on_disk (filename a)) eqn:Hd; cbn [negb].
    2: { rewrite IH. split; [intros (? & ? & ? & ?); auto|].
         intros ([Ha|?] & ? & ? & ?); [subst; congruence|done]. }
    case_bool_decide as Hb.
    { rewrite IH. split; [intros (? & ? & ? & ?); auto|].
      intros ([Ha|?] & ? & ? & ?); [subst; done|done]. }
    rewrite elem_of_cons, IH. split.
    + intros [Ha|(? & ? & ? & ?)]; [subst|]; split_and!; auto.
    + intros ([Ha|?] & ? & ? & ?); [by left|right; auto].
Qed.

(** X2: [_filter_valid_videos] keeps exactly the annotations with at
    least [min_shots] shots, a file on disk and a boundary, in the order
    of the annotation file and as often as they occur in it: the result
    is the annotation list filtered by this test. *)
Theorem filter_valid_videos_spec min_shots on_disk annotations :
  sublist (_filter_valid_videos min_shots on_disk annotations) annotations ∧
  (∀ vd, vd ∈ _filter_valid_videos min_shots on_disk annotations ↔
         vd ∈ annotations ∧ min_shots ≤ num_shots vd ∧
         on_disk (filename vd) = true ∧ frame_boundaries vd ≠ []) ∧
  _filter_valid_videos min_shots on_disk annotations =
    filter (λ vd, min_shots ≤ num_shots vd ∧ on_disk (filename vd) = true ∧
                  frame_boundaries vd ≠ [])
           annotations.
Proof.
  split_and!; [|intros vd; apply elem_of_filter_valid_videos|].
  - induction annotations as [|a l IH]; cbn [_filter_valid_videos]; [done|].
    repeat case_match; by constructor.
  - induction annotations as [|a l IH]; cbn [_filter_valid_videos]; [done|].
    rewrite filter_cons, <- IH.
    destruct (Z.ltb_spec (num_shots a) min_shots) as [Hn|Hn].
    { destruct (decide _) as [(? & _)|_]; [lia|done]. }
    destruct (on_disk (filename a)) eqn:Hd; cbn [negb].
    2: { destruct (decide _) as [(_ & ? & _)|_]; [congruence|done]. }
    case_bool_decide as Hb.
    { destruct (decide _) as [(_ & _ & ?)|_]; [done|done]. }
    destruct (decide _) as [_|Hno]; [done|]. destruct Hno. done.
Qed.

(** Every window of a dataset built by [init_dataset] comes from one
    trial on a boundary of a valid video; the unclamped start of the
    trial is the centred start, plus a draw when the jitter range is
    positive. *)
Lemma variations_start n self vd b base rand k w :
  w ∈ (variations n self vd b base rand k).1 →
  ∃ i, w ∈ emit_sequence self vd b (base + rand i).
Proof.
  revert k. induction n as [|n IH]; intros k; cbn [variations].
  - intros []%elem_of_nil.
  - destruct (variations n self vd b base rand (S k)) as [rest k'] eqn:E.
    cbn [fst]. intros [H|H]%elem_of_app; [eauto|].
    apply (IH (S k)). by rewrite E.
Qed.

Lemma boundary_sequences_start self vd b rand k w :
  w ∈ (boundary_sequences self vd b rand k).1 →
  ∃ off,
    (random_offset_range self ≤ 0 ∧ off = 0 ∨
     0 < random_offset_range self ∧ ∃ i, off = rand i) ∧
    w ∈ emit_sequence self vd b
          ((from_frame b + to_frame b) `div` 2 - sequence_length self `div` 2 + off).
Proof.
  unfold boundary_sequences.
  destruct (Z.ltb_spec 0 (random_offset_range self)) as [HJ|HJ].
  - intros (i & Hw)%variations_start. exists (rand i). split; [right; eauto|done].
  - cbn [fst]. intros Hw. exists 0. split; [by left|]. by rewrite Z.add_0_r.
Qed.

Lemma boundaries_sequences_start self vd bs rand k w :
  w ∈ (boundaries_sequences self vd bs rand k).1 →
  ∃ b off,
    b ∈ bs ∧
    (random_offset_range self ≤ 0 ∧ off = 0 ∨
     0 < random_offset_range self ∧ ∃ i, off = rand i) ∧
    w ∈ emit_sequence self vd b
          ((from_frame b + to_frame b) `div` 2 - sequence_length self `div` 2 + off).
Proof.
  revert k. induction bs as [|b bs IH]; intros k; cbn [boundaries_sequences].
  - intros []%elem_of_nil.
  - destruct (boundary_sequences self vd b rand k) as [here k1] eqn:E1.
    destruct (boundaries_sequences self vd bs rand k1) as [rest k2] eqn:E2.
    cbn [fst]. intros [H|H]%elem_of_app.
    + destruct (boundary_sequences_start self vd b rand k w) as (off & ? & ?).
      { by rewrite E1. }
      exists b, off. split_and!; [left|done|done].
    + destruct (IH k1 ltac:(by rewrite E2)) as (b' & off & ? & ? & ?).
      exists b', off. split_and!; [by right|done|done].
Qed.

Lemma videos_sequences_start self vds rand k w :
  w ∈ (videos_sequences self vds rand k).1 →
  ∃ vd b off,
    vd ∈ vds ∧ b ∈ frame_boundaries vd ∧
    (random_offset_range self ≤ 0 ∧ off = 0 ∨
     0 < random_offset_range self ∧ ∃ i, off = rand i) ∧
    w ∈ emit_sequence self vd b
          ((from_frame b + to_frame b) `div` 2 - sequence_length self `div` 2 + off).
Proof.
  revert k. induction vds as [|vd vds IH]; intros k; cbn [videos_sequences].
  - intros []%elem_of_nil.
  - destruct (boundaries_sequences self vd (frame_boundaries vd) rand k)
      as [here k1] eqn:E1.
    destruct (videos_sequences self vds rand k1) as [rest k2] eqn:E2.
    cbn [fst]. intros [H|H]%elem_of_app.
    + destruct (boundaries_sequences_start self vd (frame_boundaries vd) rand k w)
        as (b & off & ? & ? & ?).
      { by rewrite E1. }
      exists vd, b, off. split_and!; [left|done..].
    + destruct (IH k1 ltac:(by rewrite E2)) as (vd' & b & off & ? & ? & ? & ?).
      exists vd', b, off. split_and!; [by right|done..].
Qed.

(** X3: every sequence of a dataset refers to an annotation that passed
    the filter (enough shots, file on disk) and to one of the boundaries
    of that very video, and is a run of [sequence_length] consecutive
    positions from [start_frame] to [end_frame]. *)
Theorem sequences_provenance annotations on_disk seq_len min_shots J rand w :
  w ∈ (init_dataset annotations on_disk seq_len min_shots J rand).2 →
  video_data w ∈ annotations ∧
  min_shots ≤ num_shots (video_data w) ∧
  on_disk (filename (video_data w)) = true ∧
  boundary w ∈ frame_boundaries (video_data w) ∧
  end_frame w = start_frame w + seq_len - 1 ∧
  frame_positions w = range (start_frame w) (start_frame w + seq_len).
Proof.
  unfold init_dataset, _generate_sequences. cbn [snd valid_videos].
  intros (vd & b & off & Hvd & Hb & _ & Hw)%videos_sequences_start.
  rewrite emit_sequence_eq in Hw. apply list_elem_of_singleton in Hw as ->.
  cbn [video_data boundary start_frame end_frame frame_positions sequence_length].
  apply elem_of_filter_valid_videos in Hvd as (? & ? & ? & ?). done.
Qed.

(** X4: the dataset is empty exactly when no annotation passes the
    filter. *)
Theorem dataset_empty_iff annotations on_disk seq_len min_shots J rand :
  __len__ (init_dataset annotations on_disk seq_len min_shots J rand).2 = 0%nat ↔
  ∀ vd, vd ∈ annotations →
        ¬ (min_shots ≤ num_shots vd ∧ on_disk (filename vd) = true ∧
           frame_boundaries vd ≠ []).
Proof.
  unfold init_dataset, __len__, _generate_sequences. cbn [snd].
  rewrite videos_sequences_length. cbn [valid_videos].
  set (valid := _filter_valid_videos min_shots on_disk annotations).
  assert (valid = [] ↔ ∀ vd, vd ∈ annotations →
            ¬ (min_shots ≤ num_shots vd ∧ on_disk (filename vd) = true ∧
               frame_boundaries vd ≠ [])) as <-.
  { split.
    - intros Hnil vd Hvd Hok.
      assert (vd ∈ valid) as Hin by (by apply elem_of_filter_valid_videos).
      rewrite Hnil in Hin. by apply elem_of_nil in Hin.
    - intros Hno. destruct valid as [|vd l] eqn:E; [done|].
      assert (vd ∈ valid) as Hin by (rewrite E; left).
      apply elem_of_filter_valid_videos in Hin as (? & ?). by destruct (Hno vd). }
  split.
  - intros Hlen. destruct valid as [|vd l] eqn:E; [done|]. exfalso.
    assert (vd ∈ valid) as Hin by (rewrite E; left).
    apply elem_of_filter_valid_videos in Hin as (_ & _ & _ & Hb).
    destruct (frame_boundaries vd) as [|b bs] eqn:Eb; [done|].
    rewrite fmap_cons in Hlen. cbn [sum_list sum_list_with] in Hlen.
    rewrite Eb in Hlen. unfold trials in Hlen. cbn [length] in Hlen.
    unfold id in Hlen. destruct (0 <? _) in Hlen; lia.
  - intros ->. cbn. lia.
Qed.

(** X5: with a jitter range [J] such that [2 * J < sequence_length] and
    draws in [-J, J], every window on a video at least one sequence long
    contains the centre of its transition, when that centre is a frame of
    the video. *)
Theorem window_contains_transition_center self rand w :
  w ∈ _generate_sequences self rand →
  (∀ i, - random_offset_range self ≤ rand i ≤ random_offset_range self) →
  2 * random_offset_range self < sequence_length self →
  1 ≤ sequence_length self ≤ total_frames (video_data w) →
  0 ≤ (from_frame (boundary w) + to_frame (boundary w)) `div` 2
    < total_frames (video_data w) →
  (from_frame (boundary w) + to_frame (boundary w)) `div` 2 ∈ frame_positions w.
Proof.
  unfold _generate_sequences.
  intros (vd & b & off & _ & _ & Hoff & Hw)%videos_sequences_start Hrand HJ.
  rewrite emit_sequence_eq in Hw. apply list_elem_of_singleton in Hw as ->.
  cbn [video_data boundary frame_positions]. intros Hlen Hc.
  apply elem_of_range.
  set (c := (from_frame b + to_frame b) `div` 2) in *.
  assert (-random_offset_range self ≤ off ≤ random_offset_range self ∨ off = 0)
    as Hb.
  { destruct Hoff as [[_ ->]|[_ [i ->]]]; [by right|left; apply Hrand]. }
  clearbody c. clear Hoff Hrand.
  pose proof (Z.div_mod (sequence_length self) 2 ltac:(lia)).
  pose proof (Z.mod_pos_bound (sequence_length self) 2 ltac:(lia)).
  lia.
Qed.

Lemma range_app lo mid hi :
  lo ≤ mid ≤ hi → range lo hi = range lo mid ++ range mid hi.
Proof.
  intros H. unfold range. replace (hi - lo) with ((mid - lo) + (hi - mid)) by lia.
  rewrite seqZ_app by lia. do 2 f_equal. lia.
Qed.

Lemma fmap_range_const (g : Z → Z) lo hi v :
  (∀ x, lo ≤ x < hi → g x = v) →
  g <$> range lo hi = replicate (Z.to_nat (hi - lo)) v.
Proof.
  intros H. apply list_eq. intros i. unfold range. rewrite list_lookup_fmap.
  destruct (decide (Z.of_nat i < hi - lo)) as [Hi|Hi].
  - rewrite lookup_seqZ_lt by done. rewrite lookup_replicate_2 by lia.
    cbn. f_equal. apply H. lia.
  - rewrite lookup_seqZ_ge by lia. symmetry. apply lookup_replicate_None. lia.
Qed.

(** X6: on a window of consecutive positions and a boundary with
    [from_frame < to_frame] the labels are a block of 0s (the positions up
    to [from_frame]), a block of 1s (those strictly between the two
    frames) and a block of 2s (those from [to_frame] on), of the lengths
    the positions give; there are at most [to_frame - from_frame - 1]
    labels 1. *)
Theorem labels_block_structure (w : SequenceInfo) (s n : Z) :
  frame_positions w = range s (s + n) → 0 ≤ n →
  from_frame (boundary w) < to_frame (boundary w) →
  let m1 := Z.max s (Z.min (from_frame (boundary w) + 1) (s + n)) in
  let m2 := Z.max s (Z.min (to_frame (boundary w)) (s + n)) in
  _get_scene_labels w =
    replicate (Z.to_nat (m1 - s)) 0 ++ replicate (Z.to_nat (m2 - m1)) 1 ++
    replicate (Z.to_nat (s + n - m2)) 2 ∧
  m2 - m1 ≤ to_frame (boundary w) - from_frame (boundary w) - 1.
Proof.
  intros Hpos Hn Hft m1 m2. split; [|lia].
  unfold _get_scene_labels. rewrite Hpos.
  rewrite (range_app s m1 (s + n)), (range_app m1 m2 (s + n)) by lia.
  rewrite !fmap_app. f_equal; [|f_equal]; apply fmap_range_const;
    intros x Hx; unfold scene_label; repeat case_match; lia.
Qed.

Lemma scenario_A_member (rand : nat → Z) :
  mkSequenceInfo (mkVideoData "a.mp4" 100 (30 # 1) 1 [mkBoundary 40 41])
    32 47 (range 32 48) (mkBoundary 40 41)
  ∈ _generate_sequences scenario_A rand.
Proof. apply list_elem_of_singleton. reflexivity. Qed.

Lemma labels_block_structure_witness :
  _get_scene_labels
    (mkSequenceInfo (mkVideoData "b.mp4" 100 (30 # 1) 1 [mkBoundary 40 50])
       32 47 (range 32 48) (mkBoundary 40 50))
  = replicate 9 0 ++ replicate 7 1 ++ replicate 0 2.
Proof.
  apply (labels_block_structure
           (mkSequenceInfo (mkVideoData "b.mp4" 100 (30 # 1) 1 [mkBoundary 40 50])
              32 47 (range 32 48) (mkBoundary 40 50)) 32 16);
    [reflexivity|lia|cbn; lia].
Defined.

Lemma sequences_provenance_witness :
  let vd := mkVideoData "a.mp4" 100 (30 # 1) 1 [mkBoundary 40 41] in
  vd ∈ [vd] ∧ mkBoundary 40 41 ∈ frame_boundaries vd.
Proof.
  intros vd.
  destruct (sequences_provenance [vd] (λ _, true) 16 1 0 (λ _, 0)
              (mkSequenceInfo vd 32 47 (range 32 48) (mkBoundary 40 41)))
    as (H1 & _ & _ & H2 & _).
  - apply list_elem_of_singleton. reflexivity.
  - split; [exact H1|exact H2].
Defined.

Lemma window_contains_transition_center_witness :
  40 ∈ range 32 48.
Proof.
  apply (window_contains_transition_center scenario_A (λ _, 0)
           (mkSequenceInfo (mkVideoData "a.mp4" 100 (30 # 1) 1 [mkBoundary 40 41])
              32 47 (range 32 48) (mkBoundary 40 41))).
  - apply scenario_A_member.
  - intros i. unfold scenario_A. cbn. lia.
  - unfold scenario_A. cbn. lia.
  - unfold scenario_A. cbn. lia.
  - vm_compute. split; [discriminate|reflexivity].
Defined.

(** X7: on videos at least [sequence_length] frames long (and a
    non-negative [sequence_length]) every generated window has
    [sequence_length] consecutive positions, all of them frames of the
    video. *)
Theorem long_video_windows_in_bounds self rand w :
  w ∈ _generate_sequences self rand →
  0 ≤ sequence_length self ≤ total_frames (video_data w) →
  length (frame_positions w) = Z.to_nat (sequence_length self) ∧
  frame_positions w = range (start_frame w) (start_frame w + sequence_length self) ∧
  0 ≤ start_frame w ∧ end_frame w < total_frames (video_data w) ∧
  ∀ p, p ∈ frame_positions w → 0 ≤ p < total_frames (video_data w).
Proof. apply generated_window_in_bounds. Qed.

Lemma long_video_windows_in_bounds_witness :
  length (range 32 48) = 16%nat ∧ 0 ≤ 32 ∧ 47 < 100.
Proof.
  destruct (long_video_windows_in_bounds scenario_A (λ _, 0)
              (mkSequenceInfo (mkVideoData "a.mp4" 100 (30 # 1) 1 [mkBoundary 40 41])
                 32 47 (range 32 48) (mkBoundary 40 41)))
    as (Hlen & _ & H0 & Hend & _).
  - apply scenario_A_member.
  - unfold scenario_A. cbn. lia.
  - split; [exact Hlen|]. split; [exact H0|exact Hend].
Defined.

End DatasetProps.

(** ** The video reader: captures, decodes and files *)

Section ReaderCalls.

Import Reader.

Variable vf : VideoFile.

Implicit Types (s : state) (p : Z) (fd : FrameData) (cl : list call).

Ltac run :=
  repeat (progress (
    unfold get_frame_at_position, position_in_range, total_frames, fps,
      open, close, __enter__, __exit__, true_div, set_cap, set_cache,
      get_self, put_self, do_call, new_ref, raise, mbind, M_bind, mret, M_ret;
    cbn [self calls allocated _cap _total_frames _fps _frame_cache
         cap_opened fst snd negb])).

Lemma created_app cl cl' : created (cl ++ cl') = (created cl + created cl')%nat.
Proof. unfold created. by rewrite filter_app, length_app. Qed.

Lemma released_app cl cl' : released (cl ++ cl') = (released cl + released cl')%nat.
Proof. unfold released. by rewrite filter_app, length_app. Qed.

Lemma seeks_app cl cl' : seeks (cl ++ cl') = seeks cl ++ seeks cl'.
Proof. apply omap_app. Qed.

Lemma writes_app cl cl' : writes (cl ++ cl') = writes cl ++ writes cl'.
Proof. apply omap_app. Qed.

Ltac count :=
  rewrite ?created_app, ?released_app; unfold created, released in *;
  rewrite ?filter_cons, ?filter_nil; repeat case_decide; try done;
  cbn [length]; try lia.

Lemma keeps_ret P {A} (a : A) : keeps vf P (mret a).
Proof. by intros s _ HP. Qed.

Lemma keeps_raise P {A} e : keeps vf P (raise e : M A).
Proof. by intros s _ HP. Qed.

Lemma keeps_bind P {A B} (m : M A) (f : A → M B) :
  preserves vf m → keeps vf P m → (∀ a, keeps vf P (f a)) →
  keeps vf P (m ≫= f).
Proof.
  intros Hw Hm Hf s Hs HP. unfold mbind, M_bind.
  specialize (Hw s Hs). specialize (Hm s Hs HP).
  destruct (m s) as [[a|e] s']; cbn [snd] in *; [by apply Hf|done].
Qed.

Lemma keeps_get_self P {B} (f : VideoReader → M B) :
  (∀ s, wf vf s → P s → P (f (self s) s).2) → keeps vf P (get_self ≫= f).
Proof. intros Hf s Hs HP. unfold mbind, M_bind, get_self. by apply Hf. Qed.

(** *** A reader holds at most one capture and releases what it created *)

Lemma balanced_ext s s' :
  _cap (self s') = _cap (self s) →
  created (calls s') = created (calls s) →
  released (calls s') = released (calls s) →
  balanced s → balanced s'.
Proof. unfold balanced. by intros -> -> ->. Qed.

Lemma balanced_opened s : balanced s → balanced (opened vf s).
Proof.
  destruct s as [[[c|] tf fp cache] cl al]; unfold balanced, opened;
    cbn [self calls _cap]; [done|]. intros H. count.
Qed.

Lemma balanced_failed s : balanced s → balanced (failed s).
Proof.
  destruct s as [[[c|] tf fp cache] cl al]; unfold balanced, failed;
    cbn [self calls _cap]; [done|]. intros H. count.
Qed.

Lemma balanced_touched s : balanced s → balanced (touched vf s).
Proof.
  unfold touched. destruct (_total_frames (self s)); [done|apply balanced_opened].
Qed.

Lemma keeps_balanced_open : keeps vf balanced (open vf).
Proof.
  intros s _ HP. rewrite open_eq. destruct (_cap (self s)) eqn:Ec; [done|].
  destruct (is_opened vf); cbn [snd];
    [by apply balanced_opened|by apply balanced_failed].
Qed.

Lemma keeps_balanced_close : keeps vf balanced close.
Proof.
  intros [[cap tf fp cache] cl al] _. unfold balanced.
  cbn [self calls _cap]. destruct cap; run; intros H; count.
Qed.

Lemma keeps_balanced_do_call c :
  c ≠ VideoCapture_new → c ≠ cap_release → keeps vf balanced (do_call c).
Proof.
  intros H1 H2 [r cl al] _. unfold balanced, do_call. cbn [self calls snd].
  intros H. count.
Qed.

Lemma keeps_balanced_total_frames : keeps vf balanced (total_frames vf).
Proof.
  unfold total_frames. apply keeps_get_self. intros s Hs HP.
  apply keeps_bind; [| |intros; apply keeps_get_self; by intros|done|done].
  - destruct (_total_frames (self s)); [apply preserves_ret|apply preserves_open].
  - destruct (_total_frames (self s)); [apply keeps_ret|apply keeps_balanced_open].
Qed.

Lemma keeps_balanced_fps : keeps vf balanced (fps vf).
Proof.
  unfold fps. apply keeps_get_self. intros s Hs HP.
  apply keeps_bind; [| |intros; apply keeps_get_self; by intros|done|done].
  - destruct (_fps (self s)); [apply preserves_ret|apply preserves_open].
  - destruct (_fps (self s)); [apply keeps_ret|apply keeps_balanced_open].
Qed.

Lemma keeps_balanced_get_frame p uc :
  keeps vf balanced (get_frame_at_position vf p uc).
Proof.
  intros s Hs HP. destruct (is_opened vf) eqn:Ho.
  - rewrite get_frame_eq by done. unfold get_frame_model.
    destruct ((0 <=? p) && (p <? frame_count vf));
      [|by apply balanced_touched].
    destruct (if uc then _ else _); [by apply balanced_touched|].
    assert (∀ r al, _cap r = _cap (self (opened vf s)) →
              balanced (mkState r (calls (opened vf s) ++ [cap_set p; cap_read]) al))
      as Hb.
    { intros r al Hr. eapply (balanced_ext (opened vf s)); [done| | |].
      - cbn [calls]. count.
      - cbn [calls]. count.
      - by apply balanced_opened. }
    destruct (read_at vf p); [|by apply Hb].
    destruct (Qeq_bool _ _); by apply Hb.
  - destruct (get_frame_unopenable vf s p uc Hs Ho) as [e ->].
    by apply balanced_failed.
Qed.

Lemma keeps_balanced_get_each l uc : keeps vf balanced (get_each vf l uc).
Proof.
  induction l as [|p l IH]; cbn [get_each]; [apply keeps_ret|].
  apply keeps_bind; [apply preserves_get_frame|apply keeps_balanced_get_frame|].
  intros fd. apply keeps_bind; [apply preserves_get_each|apply IH|].
  intros frames. apply keeps_ret.
Qed.

Lemma keeps_balanced_expand_ranges rs step : keeps vf balanced (expand_ranges rs step).
Proof.
  induction rs as [|[a b] rs IH]; cbn [expand_ranges]; [apply keeps_ret|].
  destruct (if b <? a then (b, a) else (a, b)) as [a' b'].
  apply keeps_bind.
  - destruct (step =? 0); [apply preserves_raise|apply preserves_ret].
  - destruct (step =? 0); [apply keeps_raise|apply keeps_ret].
  - intros _. apply keeps_bind; [apply preserves_expand_ranges|apply IH|].
    intros ?. apply keeps_ret.
Qed.

Lemma keeps_balanced_expand_around ps h : keeps vf balanced (expand_around vf ps h).
Proof.
  induction ps as [|pos ps IH]; cbn [expand_around]; [apply keeps_ret|].
  apply keeps_bind; [apply preserves_total_frames|apply keeps_balanced_total_frames|].
  intros [n|]; [|apply keeps_raise].
  apply keeps_bind; [apply preserves_expand_around|apply IH|].
  intros ?. apply keeps_ret.
Qed.

Lemma keeps_balanced_save_each d t fs frames :
  keeps vf balanced (save_each d t fs frames).
Proof.
  induction frames as [|fd frames IH]; cbn [save_each]; [apply keeps_ret|].
  destruct (t (position fd)); [|apply keeps_raise].
  apply keeps_bind;
    [apply preserves_do_call|by apply keeps_balanced_do_call|].
  intros _. destruct (imwrite_raises fs d _); [apply keeps_raise|apply IH].
Qed.

Lemma keeps_balanced_get_video_info : keeps vf balanced (get_video_info vf).
Proof.
  unfold get_video_info. apply keeps_get_self. intros s Hs HP.
  apply keeps_bind; [| |intros _|done|done].
  { destruct (_cap (self s)); [apply preserves_ret|apply preserves_open]. }
  { destruct (_cap (self s)); [apply keeps_ret|apply keeps_balanced_open]. }
  apply keeps_bind; [apply preserves_total_frames|apply keeps_balanced_total_frames|].
  intros t.
  apply keeps_bind; [apply preserves_fps|apply keeps_balanced_fps|]. intros q.
  apply keeps_bind; [apply preserves_total_frames|apply keeps_balanced_total_frames|].
  intros t'.
  apply keeps_bind; [apply preserves_fps|apply keeps_balanced_fps|]. intros q'.
  apply keeps_bind; [apply preserves_true_div| |].
  { unfold true_div. destruct t', q'; try apply keeps_raise.
    destruct (Qeq_bool _ _); [apply keeps_raise|apply keeps_ret]. }
  intros d. apply keeps_get_self. intros s' Hs' HP'.
  destruct (_cap (self s')); [by apply keeps_ret|by apply keeps_raise].
Qed.

Lemma balanced_run_op o s : wf vf s → balanced s → balanced (run_op vf o s).
Proof.
  intros Hs HP. destruct o; cbn [run_op].
  - by apply keeps_balanced_open.
  - by apply keeps_balanced_close.
  - by apply keeps_balanced_open.
  - by apply keeps_balanced_close.
  - by apply keeps_balanced_total_frames.
  - by apply keeps_balanced_fps.
  - by apply keeps_balanced_get_frame.
  - by apply keeps_balanced_get_each.
  - revert s Hs HP. apply keeps_bind;
      [apply preserves_expand_ranges|apply keeps_balanced_expand_ranges|].
    intros l. apply keeps_balanced_get_each.
  - revert s Hs HP. apply keeps_bind;
      [apply preserves_expand_around|apply keeps_balanced_expand_around|].
    intros l. apply keeps_balanced_get_each.
  - revert s Hs HP. apply keeps_bind;
      [apply preserves_get_frames|apply keeps_balanced_get_each|].
    intros frames. apply keeps_bind; [| |intros _; apply keeps_ret].
    + destruct output_dir as [d|]; [|apply preserves_ret].
      apply preserves_bind; [apply preserves_do_call|]. intros _.
      apply preserves_bind; [|intros _; apply preserves_save_each].
      destruct (mkdir_raises fs d); [apply preserves_raise|apply preserves_ret].
    + destruct output_dir as [d|]; [|apply keeps_ret].
      apply keeps_bind;
        [apply preserves_do_call|by apply keeps_balanced_do_call|].
      intros _. apply keeps_bind; [| |intros _; apply keeps_balanced_save_each].
      * destruct (mkdir_raises fs d); [apply preserves_raise|apply preserves_ret].
      * destruct (mkdir_raises fs d); [apply keeps_raise|apply keeps_ret].
  - by apply keeps_balanced_get_video_info.
Qed.

(** X8: after any sequence of operations on a constructed reader, the
    captures created are the captures released plus the one the reader
    holds, if it holds one: a second capture is never created while one
    is held, and after [close] every capture created has been released. *)
Theorem captures_balanced (os : list op) :
  let s := run_ops vf os fresh in
  created (calls s) =
    (released (calls s) + match _cap (self s) with Some _ => 1 | None => 0 end)%nat ∧
  created (calls (close s).2) = released (calls (close s).2).
Proof.
  intros s.
  assert (wf vf s ∧ balanced s) as [Hs Hb].
  { subst s. generalize fresh (wf_fresh vf) (eq_refl : balanced fresh).
    induction os as [|o os IH]; intros s0 Hs0 Hb0; [done|].
    cbn [run_ops foldl]. apply IH; [by apply wf_run_op|by apply balanced_run_op]. }
  split; [exact Hb|].
  pose proof (keeps_balanced_close s Hs Hb) as Hc. unfold balanced in Hc.
  destruct s as [[cap tf fp cache] cl al]. destruct cap; revert Hc; run; lia.
Qed.

(** *** A capture that does not open *)

(** X9: when the capture of the file does not open, [open] raises and
    keeps the capture; from then on [open] returns without a call and
    without an error, [total_frames] is [None], and
    [get_frame_at_position] raises [TypeError] for a position from 0 on
    and the range error for a negative one. Only [close] drops the
    capture, after which [open] tries, and fails, again. *)
Theorem failed_open_is_kept s :
  wf vf s → is_opened vf = false → _cap (self s) = None →
  let s1 := failed s in
  open vf s = (Raise RuntimeError_open, s1) ∧
  calls s1 = calls s ++ [VideoCapture_new] ∧
  open vf s1 = (Ok (), s1) ∧
  total_frames vf s1 = (Ok None, s1) ∧
  (∀ p uc, 0 ≤ p → get_frame_at_position vf p uc s1 = (Raise TypeError, s1)) ∧
  (∀ p uc, p < 0 →
     get_frame_at_position vf p uc s1 = (Raise ValueError_range, s1)) ∧
  (open vf (close s1).2).1 = Raise RuntimeError_open.
Proof.
  destruct s as [[cap tf fp cache] cl al]. unfold wf, attrs_ok, failed.
  cbn [self calls allocated _cap _total_frames _fps _frame_cache].
  intros [Hc Ha] Ho ->. destruct tf, fp; try done;
    [destruct Ha as [Ha _]; congruence|].
  change (cache = ∅) in Ha. subst cache.
  split_and!.
  - repeat (run; rewrite ?Ho). reflexivity.
  - reflexivity.
  - run. reflexivity.
  - run. reflexivity.
  - intros p uc Hp. apply Z.leb_le in Hp.
    repeat (run; rewrite ?Hp). reflexivity.
  - intros p uc Hp. apply Z.leb_gt in Hp.
    repeat (run; rewrite ?Hp). reflexivity.
  - repeat (run; rewrite ?Ho). reflexivity.
Qed.

(** *** [get_video_info] *)

(** X10: on a reader of a video that opens, [get_video_info] returns the
    frame count, the frame rate, the float of the division of the one by
    the other as the duration, and the frame size, creating a capture
    when the reader holds none; it never seeks or reads and leaves the
    cache alone. With a frame rate of zero it raises [ZeroDivisionError]
    instead. *)
Theorem video_info_spec s :
  wf vf s → is_opened vf = true →
  get_video_info vf s =
    (if Qeq_bool (frame_rate vf) 0 then Raise ZeroDivisionError
     else Ok (mkVideoInfo (Some (frame_count vf)) (Some (frame_rate vf))
                (mk_float_div (frame_count vf) (frame_rate vf))
                (frame_width vf) (frame_height vf)),
     opened vf s) ∧
  _frame_cache (self (opened vf s)) = _frame_cache (self s) ∧
  seeks (calls (opened vf s)) = seeks (calls s).
Proof.
  intros Hs Ho. split_and!.
  - destruct s as [[cap tf fp cache] cl al]. destruct Hs as [Hc Ha].
    unfold attrs_ok, opened, get_video_info in *.
    cbn [self calls allocated _cap _total_frames _fps _frame_cache] in *.
    destruct cap as [[o]|], tf as [n|], fp as [q|]; try done;
      destruct_and?; cbn [cap_opened] in *; subst; try congruence;
      destruct (Qeq_bool (frame_rate vf) 0) eqn:E;
      repeat (run; rewrite ?Ho, ?E); reflexivity.
  - apply opened_cache.
  - destruct (opened_calls vf s) as [->| ->]; [done|].
    rewrite seeks_app. cbn. by rewrite app_nil_r.
Qed.

(** *** Closing and reading again *)

(** X11: [close] throws the cache away: on a healthy video, a position
    that was returned from the cache or decoded into it is, after
    [close], decoded again by the next call, on a new capture, and comes
    back as a new object with the same image. *)
Theorem close_then_read_decodes_again s p fd s1 :
  healthy vf → wf vf s →
  get_frame_at_position vf p true s = (Ok fd, s1) →
  ∃ fd' s3,
    get_frame_at_position vf p true (close s1).2 = (Ok fd', s3) ∧
    calls s3 = calls (close s1).2 ++ [VideoCapture_new; cap_set p; cap_read] ∧
    ref fd' ≠ ref fd ∧ position fd' = p ∧
    read_at vf p = Some (frame fd') ∧
    _frame_cache (self s3) = {[ p := fd' ]}.
Proof.
  intros (Ho & Hread & Hrate) Hs E.
  destruct (get_frame_position vf s p true fd s1 Hs E) as [Hpos Hp].
  assert (wf vf s1) as Hs1.
  { pose proof (preserves_get_frame vf p true s Hs) as H. by rewrite E in H. }
  assert (_frame_cache (self s1) !! p = Some fd) as Hfd.
  { rewrite get_frame_eq in E by done. unfold get_frame_model in E.
    destruct ((0 <=? p) && (p <? frame_count vf)); [|discriminate E].
    destruct (_frame_cache (self s) !! p) as [fd0|] eqn:Ec.
    - injection E as <- <-. by rewrite touched_cache.
    - destruct (read_at vf p); [|discriminate E].
      destruct (Qeq_bool _ _); [discriminate E|].
      injection E as <- <-. cbn [self _frame_cache]. apply lookup_insert_eq. }
  assert ((ref fd < allocated s1)%nat) as Href by (by apply Hs1 in Hfd as (_ & _ & ?)).
  pose proof (wf_cached_total vf s1 p fd Hs1 Hfd) as Htf.
  pose proof (preserves_close vf s1 Hs1) as Hs2.
  destruct (Hread p Hp) as [img Himg].
  rewrite get_frame_eq by done. unfold get_frame_model.
  replace ((0 <=? p) && (p <? frame_count vf)) with true
    by (symmetry; apply andb_true_intro; split;
        [apply Z.leb_le|apply Z.ltb_lt]; lia).
  rewrite close_cache, lookup_empty, Himg, Hrate.
  destruct s1 as [[cap tf fp cache] cl al]. cbn [self _total_frames allocated] in *.
  subst tf. eexists _, _. split; [reflexivity|].
  destruct cap; run; unfold opened; cbn [self calls _cap allocated ref position frame];
    rewrite <- ?app_assoc; split_and!; try done; try lia;
    by rewrite insert_empty.
Qed.

(** *** Batches decode each position once *)

Lemma bind_raise {A B} (m : M A) (f : A → M B) s e s' :
  m s = (Raise e, s') → (m ≫= f) s = (Raise e, s').
Proof. unfold mbind, M_bind. by intros ->. Qed.

Lemma seeks_touched s : seeks (calls (touched vf s)) = seeks (calls s).
Proof.
  destruct (touched_calls vf s) as [->| ->]; [done|].
  rewrite seeks_app. cbn. by rewrite app_nil_r.
Qed.

Lemma seeks_opened s : seeks (calls (opened vf s)) = seeks (calls s).
Proof.
  destruct (opened_calls vf s) as [->| ->]; [done|].
  rewrite seeks_app. cbn. by rewrite app_nil_r.
Qed.

Lemma get_frame_hit s p fd :
  wf vf s → is_opened vf = true → _frame_cache (self s) !! p = Some fd →
  get_frame_at_position vf p true s = (Ok fd, touched vf s).
Proof.
  intros Hs Ho Hfd. rewrite get_frame_eq by done. unfold get_frame_model.
  destruct (proj1 Hs p fd Hfd) as (Hp & _).
  replace ((0 <=? p) && (p <? frame_count vf)) with true
    by (symmetry; apply andb_true_intro; split;
        [apply Z.leb_le|apply Z.ltb_lt]; lia).
  by rewrite Hfd.
Qed.

Lemma get_frame_miss s p :
  healthy vf → wf vf s → 0 ≤ p < frame_count vf →
  _frame_cache (self s) !! p = None →
  ∃ fd s',
    get_frame_at_position vf p true s = (Ok fd, s') ∧
    read_at vf p = Some (frame fd) ∧ position fd = p ∧
    _frame_cache (self s') = <[p := fd]> (_frame_cache (self s)) ∧
    seeks (calls s') = seeks (calls s) ++ [p].
Proof.
  intros (Ho & Hread & Hrate) Hs Hp Hmiss.
  rewrite get_frame_eq by done. unfold get_frame_model.
  replace ((0 <=? p) && (p <? frame_count vf)) with true
    by (symmetry; apply andb_true_intro; split;
        [apply Z.leb_le|apply Z.ltb_lt]; lia).
  rewrite Hmiss. destruct (Hread p Hp) as [img Himg]. rewrite Himg, Hrate.
  eexists _, _. split; [reflexivity|]. cbn [frame position self _frame_cache calls].
  split_and!; try done. rewrite seeks_app, seeks_opened. reflexivity.
Qed.

Lemma filter_ext_elem (P1 P2 : Z → Prop)
    `{!∀ x, Decision (P1 x), !∀ x, Decision (P2 x)} (l : list Z) :
  (∀ x, x ∈ l → P1 x ↔ P2 x) → filter P1 l = filter P2 l.
Proof.
  induction l as [|a l IH]; intros Hext; [done|].
  rewrite !filter_cons. rewrite IH by (intros x Hx; apply Hext; by right).
  destruct (decide (P1 a)) as [H1|H1], (decide (P2 a)) as [H2|H2]; try done;
    exfalso; [apply H2|apply H1]; by apply (Hext a); [left|].
Qed.

Lemma get_each_decodes l s frames s' :
  healthy vf → wf vf s → Forall (λ p, 0 ≤ p < frame_count vf) l → NoDup l →
  get_each vf l true s = (Ok frames, s') →
  seeks (calls s') =
    seeks (calls s) ++ filter (λ p, _frame_cache (self s) !! p = None) l ∧
  Forall2 (λ p fd, _frame_cache (self s') !! p = Some fd) l frames ∧
  (∀ q x, _frame_cache (self s) !! q = Some x →
          _frame_cache (self s') !! q = Some x) ∧
  (∀ q, q ∉ l → _frame_cache (self s') !! q = _frame_cache (self s) !! q).
Proof.
  intros Hh Hs Hl. pose proof Hh as (Ho & _ & _).
  revert s frames s' Hs.
  induction Hl as [|p l Hp Hl IH]; intros s frames s' Hs Hnd; cbn [get_each].
  - intros [= <- <-]. rewrite filter_nil, app_nil_r. split_and!; by try constructor.
  - apply NoDup_cons in Hnd as [Hpl Hnd].
    intros (fd & s1 & E1 & E)%bind_inv_ok.
    apply bind_inv_ok in E as (rest & s2 & E2 & [= <- <-]).
    assert (wf vf s1) as Hs1.
    { pose proof (preserves_get_frame vf p true s Hs) as H. by rewrite E1 in H. }
    destruct (IH s1 rest s2 Hs1 Hnd E2) as (IHs & IHf & IHm & IHo).
    rewrite filter_cons.
    destruct (_frame_cache (self s) !! p) as [fd0|] eqn:Ec.
    + rewrite (get_frame_hit s p fd0 Hs Ho Ec) in E1. injection E1 as <- <-.
      rewrite touched_cache in *. rewrite seeks_touched in IHs.
      destruct (decide (Some fd0 = None)) as [?|_]; [done|].
      split_and!; try done.
      * constructor; [by apply IHm|done].
      * intros q Hq. apply IHo. intros ?. apply Hq. by right.
    + destruct (get_frame_miss s p Hh Hs Hp Ec) as (fd' & s1' & E1' & _ & _ & Hc1 & Hk1).
      rewrite E1' in E1. injection E1 as <- <-.
      destruct (decide (None = None)) as [_|?]; [|done].
      split_and!.
      * rewrite IHs, Hk1, <- app_assoc. cbn [app]. do 2 f_equal.
        apply filter_ext_elem. intros q Hq. rewrite Hc1.
        rewrite lookup_insert_ne; [done|]. by intros ->.
      * constructor; [|done]. apply IHm. rewrite Hc1. apply lookup_insert_eq.
      * intros q x Hq. apply IHm. rewrite Hc1.
        rewrite lookup_insert_ne; [done|]. intros ->. congruence.
      * intros q Hq. rewrite IHo by (intros ?; apply Hq; by right).
        rewrite Hc1. rewrite lookup_insert_ne; [done|]. intros ->. apply Hq. left.
Qed.

Lemma get_each_all_cached l frames s :
  wf vf s → is_opened vf = true → is_Some (_total_frames (self s)) →
  Forall2 (λ p fd, _frame_cache (self s) !! p = Some fd) l frames →
  get_each vf l true s = (Ok frames, s).
Proof.
  intros Hs Ho [n Hn] Hall.
  assert (touched vf s = s) as Ht by (unfold touched; by rewrite Hn).
  induction Hall as [|p fd l frames Hfd Hall IH]; cbn [get_each]; [done|].
  erewrite bind_ok by (rewrite (get_frame_hit s p fd Hs Ho Hfd), Ht; reflexivity).
  erewrite bind_ok by exact IH. reflexivity.
Qed.

(** X12: a batch with caching on a healthy video seeks exactly the
    requested positions that are not yet cached, each once and in
    ascending order; afterwards every returned frame is the cached object
    of its position, what was cached before still is, and the same batch
    again returns the same objects without changing anything, so without
    any decode. *)
Theorem get_frames_decodes_once s (L : list Positions) frames s1 :
  healthy vf → wf vf s →
  Forall (λ p, 0 ≤ p < frame_count vf) (_flatten_positions L) →
  get_frames vf L true s = (Ok frames, s1) →
  seeks (calls s1) =
    seeks (calls s) ++
    filter (λ p, _frame_cache (self s) !! p = None)
           (sorted_set (_flatten_positions L)) ∧
  (∀ fd, fd ∈ frames → _frame_cache (self s1) !! position fd = Some fd) ∧
  (∀ p fd, _frame_cache (self s) !! p = Some fd →
           _frame_cache (self s1) !! p = Some fd) ∧
  get_frames vf L true s1 = (Ok frames, s1).
Proof.
  intros Hh Hs Hl E. pose proof Hh as (Ho & _ & _). unfold get_frames in *.
  set (l := sorted_set (_flatten_positions L)) in *.
  assert (wf vf s1) as Hs1.
  { pose proof (preserves_get_each vf l true s Hs) as H. by rewrite E in H. }
  pose proof (get_each_positions vf l true s frames s1 Hs E) as Hpos.
  destruct (get_each_decodes l s frames s1 Hh Hs) as (Hk & Hall & Hm & _);
    [by apply Forall_sorted_set|apply NoDup_sorted_set|done|].
  split_and!; try done.
  - intros fd Hfd. apply list_elem_of_lookup in Hfd as [i Hi].
    destruct (Forall2_lookup_r _ _ _ _ _ Hall Hi) as (p & Hp & Hc).
    assert (position fd = p) as ->; [|done].
    rewrite <- Hpos in Hp. rewrite list_lookup_fmap, Hi in Hp. by injection Hp.
  - destruct frames as [|fd frames'].
    + apply Forall2_nil_inv_r in Hall. rewrite Hall. reflexivity.
    + apply get_each_all_cached; try done.
      inversion Hall as [|p ? ? ? Hc _]; subst.
      rewrite (wf_cached_total vf s1 p fd Hs1 Hc). by eexists.
Qed.

(** *** A position outside the video in a batch *)

Lemma get_frame_out_of_range s p uc :
  wf vf s → is_opened vf = true → ¬ (0 ≤ p < frame_count vf) →
  get_frame_at_position vf p uc s = (Raise ValueError_range, touched vf s).
Proof.
  intros Hs Ho Hp. rewrite get_frame_eq by done. unfold get_frame_model.
  replace ((0 <=? p) && (p <? frame_count vf)) with false; [done|].
  symmetry. apply andb_false_iff.
  destruct (Z.leb_spec 0 p); [|by left].
  destruct (Z.ltb_spec p (frame_count vf)); [lia|by right].
Qed.

Lemma get_each_out_of_range l uc s :
  healthy vf → wf vf s → ¬ Forall (λ p, 0 ≤ p < frame_count vf) l →
  (get_each vf l uc s).1 = Raise ValueError_range.
Proof.
  intros Hh. pose proof Hh as (Ho & _ & _). revert s.
  induction l as [|p l IH]; intros s Hs Hl; cbn [get_each].
  - destruct Hl. constructor.
  - destruct (decide (0 ≤ p < frame_count vf)) as [Hp|Hp].
    + destruct (get_frame_ok vf s p uc Hh Hs Hp) as (fd & s1 & E1 & _ & Hs1).
      erewrite bind_ok by exact E1.
      assert (¬ Forall (λ p, 0 ≤ p < frame_count vf) l) as Hl'
        by (intros H; apply Hl; by constructor).
      specialize (IH s1 Hs1 Hl'). unfold mbind, M_bind.
      destruct (get_each vf l uc s1) as [[frames|e] s2]; cbn [fst] in *;
        [discriminate IH|done].
    + erewrite bind_raise by (by apply get_frame_out_of_range). reflexivity.
Qed.

Lemma sorted_negative_head (l : list Z) :
  StronglySorted Z.lt l → (∃ p, p ∈ l ∧ p < 0) →
  ∃ h t, l = h :: t ∧ h < 0.
Proof.
  intros Hs (p & Hp & Hneg). destruct l as [|h t]; [by apply elem_of_nil in Hp|].
  exists h, t. split; [done|].
  apply elem_of_cons in Hp as [->|Hp]; [done|].
  apply StronglySorted_inv in Hs as [_ Hh]. rewrite Forall_forall in Hh.
  specialize (Hh p Hp). lia.
Qed.

(** X13: on a healthy video a batch that names a position outside the
    video raises the range error; when one of the positions is negative
    it does so before anything is decoded: no seek, no frame built, the
    cache as it was. *)
Theorem get_frames_out_of_range s (L : list Positions) (uc : bool) :
  healthy vf → wf vf s →
  (∃ p, p ∈ _flatten_positions L ∧ ¬ (0 ≤ p < frame_count vf)) →
  (get_frames vf L uc s).1 = Raise ValueError_range ∧
  ((∃ p, p ∈ _flatten_positions L ∧ p < 0) →
   seeks (calls (get_frames vf L uc s).2) = seeks (calls s) ∧
   allocated (get_frames vf L uc s).2 = allocated s ∧
   _frame_cache (self (get_frames vf L uc s).2) = _frame_cache (self s)).
Proof.
  intros Hh Hs (p & Hp & Hout). pose proof Hh as (Ho & _ & _).
  unfold get_frames. split.
  - apply get_each_out_of_range; [done..|].
    rewrite Forall_forall. intros H. apply Hout, H. by apply elem_of_sorted_set.
  - intros (q & Hq & Hneg).
    destruct (sorted_negative_head (sorted_set (_flatten_positions L)))
      as (h & t & -> & Hh0).
    { apply sorted_set_ascending. }
    { exists q. split; [by apply elem_of_sorted_set|done]. }
    cbn [get_each].
    erewrite bind_raise by (apply get_frame_out_of_range; [done..|lia]).
    cbn [snd]. by rewrite seeks_touched, touched_allocated, touched_cache.
Qed.

(** *** Ranges *)

Lemma elem_of_range_step lo hi step x :
  0 < step →
  x ∈ range_step lo hi step ↔ lo ≤ x < hi ∧ (x - lo) `mod` step = 0.
Proof.
  intros Hstep. unfold range_step.
  replace (0 <? step) with true by (symmetry; by apply Z.ltb_lt).
  rewrite list_elem_of_fmap. setoid_rewrite elem_of_seq.
  set (n := (hi - lo + step - 1) `div` step).
  assert (∀ i : Z, 0 ≤ i → i < n ↔ i * step < hi - lo) as Hn.
  { intros i Hi. subst n. split.
    - intros Hlt. pose proof (Z.mul_div_le (hi - lo + step - 1) step Hstep). nia.
    - intros Hlt.
      assert (i + 1 ≤ (hi - lo + step - 1) `div` step)
        by (apply Z.div_le_lower_bound; [done|nia]).
      lia. }
  split.
  - intros (i & -> & _ & Hi).
    assert (Z.of_nat i < n) as Hi' by lia. apply Hn in Hi'; [|lia].
    split; [nia|]. replace (lo + Z.of_nat i * step - lo) with (Z.of_nat i * step) by lia.
    apply Z.mod_mul. lia.
  - intros [Hx Hmod].
    pose proof (Z.div_mod (x - lo) step ltac:(lia)) as Hdm. rewrite Hmod in Hdm.
    assert (0 ≤ (x - lo) `div` step) as Hq by (apply Z.div_pos; lia).
    exists (Z.to_nat ((x - lo) `div` step)). rewrite Z2Nat.id by done.
    split; [lia|]. split; [lia|].
    assert ((x - lo) `div` step < n) as Hlt by (apply Hn; [done|lia]). lia.
Qed.

Lemma expand_ranges_eq rs step s :
  expand_ranges rs step s =
    (match rs with
     | [] => Ok []
     | _ =>
         if step =? 0 then Raise ValueError_step
         else Ok (concat ((λ ab, range_step (Z.min ab.1 ab.2)
                                            (Z.max ab.1 ab.2 + 1) step) <$> rs))
     end, s).
Proof.
  induction rs as [|[a b] rs IH]; cbn [expand_ranges]; [done|].
  assert ((if b <? a then (b, a) else (a, b)) = (Z.min a b, Z.max a b)) as ->.
  { destruct (Z.ltb_spec b a); f_equal; lia. }
  destruct (step =? 0) eqn:E; [reflexivity|].
  unfold mbind, M_bind, mret, M_ret at 1. rewrite IH. destruct rs; reflexivity.
Qed.

(** X14: [get_frames_from_ranges] with [step = 0] and at least one range
    raises [ValueError] and leaves the reader alone; with no range, or
    with a negative step, it returns no frame, and no error; and a
    reversed pair gives what the pair in order gives. *)
Theorem ranges_edge_cases (rs : list (Z * Z)) (step : Z) (uc : bool) s :
  (rs ≠ [] → get_frames_from_ranges vf rs 0 uc s = (Raise ValueError_step, s)) ∧
  get_frames_from_ranges vf [] step uc s = (Ok [], s) ∧
  (step < 0 → get_frames_from_ranges vf rs step uc s = (Ok [], s)) ∧
  get_frames_from_ranges vf (prod_swap <$> rs) step uc s =
    get_frames_from_ranges vf rs step uc s.
Proof.
  unfold get_frames_from_ranges. split_and!.
  - intros Hrs. erewrite bind_raise; [done|]. rewrite expand_ranges_eq.
    by destruct rs.
  - reflexivity.
  - intros Hstep.
    assert (concat ((λ ab, range_step (Z.min ab.1 ab.2) (Z.max ab.1 ab.2 + 1) step)
                      <$> rs) = []) as Hnil.
    { induction rs as [|ab rs IH]; [done|]. rewrite fmap_cons. cbn [concat].
      rewrite IH. unfold range_step.
      by replace (0 <? step) with false by (symmetry; apply Z.ltb_ge; lia). }
    assert (expand_ranges rs step s = (Ok [], s)) as Ex.
    { rewrite expand_ranges_eq, Hnil.
      replace (step =? 0) with false by (symmetry; apply Z.eqb_neq; lia).
      by destruct rs. }
    erewrite bind_ok by exact Ex. reflexivity.
  - unfold mbind, M_bind. rewrite !expand_ranges_eq.
    assert ((λ ab, range_step (Z.min ab.1 ab.2) (Z.max ab.1 ab.2 + 1) step)
              <$> (prod_swap <$> rs) =
            (λ ab, range_step (Z.min ab.1 ab.2) (Z.max ab.1 ab.2 + 1) step)
              <$> rs) as Hsw.
    { rewrite <- list_fmap_compose. apply list_fmap_ext. intros i [a b] _.
      cbn. by rewrite Z.min_comm, Z.max_comm. }
    rewrite Hsw. by destruct rs.
Qed.

(** X15: on a healthy video, with a positive step and ranges whose
    ends lie inside the video, [get_frames_from_ranges] returns the frames
    at the positions [lo, lo + step, ...] up to [hi] of every range (the
    smaller and the larger end), each position once, ascending. *)
Theorem ranges_positions (rs : list (Z * Z)) (step : Z) (uc : bool) s :
  healthy vf → wf vf s → 0 < step →
  Forall (λ ab, 0 ≤ ab.1 < frame_count vf ∧ 0 ≤ ab.2 < frame_count vf) rs →
  ∃ frames s',
    get_frames_from_ranges vf rs step uc s = (Ok frames, s') ∧
    StronglySorted Z.lt (position <$> frames) ∧
    ∀ x, x ∈ (position <$> frames) ↔
         ∃ ab, ab ∈ rs ∧ Z.min ab.1 ab.2 ≤ x ≤ Z.max ab.1 ab.2 ∧
               (x - Z.min ab.1 ab.2) `mod` step = 0.
Proof.
  intros Hh Hs Hstep Hrs. unfold get_frames_from_ranges.
  set (all := concat ((λ ab, range_step (Z.min ab.1 ab.2) (Z.max ab.1 ab.2 + 1) step)
                        <$> rs)).
  assert (expand_ranges rs step s = (Ok all, s)) as Ex.
  { rewrite expand_ranges_eq.
    replace (step =? 0) with false by (symmetry; apply Z.eqb_neq; lia).
    subst all. by destruct rs. }
  assert (∀ x, x ∈ all ↔
            ∃ ab, ab ∈ rs ∧ Z.min ab.1 ab.2 ≤ x ≤ Z.max ab.1 ab.2 ∧
                  (x - Z.min ab.1 ab.2) `mod` step = 0) as Hall.
  { intros x. subst all. rewrite elem_of_concat. split.
    - intros (l & Hx & (ab & -> & Hab)%list_elem_of_fmap).
      apply elem_of_range_step in Hx as [? ?]; [|done].
      exists ab. split_and!; [done|lia|lia|done].
    - intros (ab & Hab & Hx & Hmod).
      exists (range_step (Z.min ab.1 ab.2) (Z.max ab.1 ab.2 + 1) step). split.
      + apply elem_of_range_step; [done|]. split; [lia|done].
      + apply list_elem_of_fmap. by exists ab. }
  destruct (get_frames_ok vf (PInt <$> all) uc s Hh Hs) as (frames & s' & E & Hpos & _).
  { rewrite _flatten_positions_ints. apply Forall_forall. intros x Hx.
    apply Hall in Hx as (ab & Hab & Hx & _).
    rewrite Forall_forall in Hrs. specialize (Hrs ab Hab). lia. }
  rewrite _flatten_positions_ints in Hpos.
  exists frames, s'. split_and!.
  - erewrite bind_ok by exact Ex. exact E.
  - rewrite Hpos. apply sorted_set_ascending.
  - intros x. rewrite Hpos, elem_of_sorted_set. apply Hall.
Qed.

(** *** Saving a batch *)

Lemma writes_opened s : writes (calls (opened vf s)) = writes (calls s).
Proof.
  destruct (opened_calls vf s) as [->| ->]; [done|].
  rewrite writes_app. cbn. by rewrite app_nil_r.
Qed.

Lemma writes_touched s : writes (calls (touched vf s)) = writes (calls s).
Proof.
  unfold touched. destruct (_total_frames (self s)); [done|apply writes_opened].
Qed.

Lemma keeps_writes_get_frame w p uc :
  keeps vf (λ s, writes (calls s) = w) (get_frame_at_position vf p uc).
Proof.
  intros s Hs HP. cbv beta in *. destruct (is_opened vf) eqn:Ho.
  - rewrite get_frame_eq by done. unfold get_frame_model.
    destruct ((0 <=? p) && (p <? frame_count vf));
      [|cbn [snd]; by rewrite writes_touched].
    destruct (if uc then _ else _); [cbn [snd]; by rewrite writes_touched|].
    destruct (read_at vf p); [destruct (Qeq_bool _ _)|]; cbn [snd calls];
      rewrite writes_app, writes_opened, HP; cbn; by rewrite app_nil_r.
  - destruct (get_frame_unopenable vf s p uc Hs Ho) as [e ->]. cbn [snd].
    unfold failed. destruct (_cap (self s)); [done|]. cbn [calls].
    rewrite writes_app, HP. cbn. by rewrite app_nil_r.
Qed.

Lemma keeps_writes_get_each w l uc :
  keeps vf (λ s, writes (calls s) = w) (get_each vf l uc).
Proof.
  induction l as [|p l IH]; cbn [get_each]; [apply keeps_ret|].
  apply keeps_bind; [apply preserves_get_frame|apply keeps_writes_get_frame|].
  intros fd. apply keeps_bind; [apply preserves_get_each|apply IH|].
  intros frames. apply keeps_ret.
Qed.

(** A frame is saved when the template formats its position and
    [cv2.imwrite] does not raise for the file name. *)
Lemma save_each_prefix d t fs pre rest s :
  (∀ fd, fd ∈ pre →
     ∃ name, t (position fd) = Some name ∧ imwrite_raises fs d name = false) →
  save_each d t fs (pre ++ rest) s =
    save_each d t fs rest
      (mkState (self s) (calls s ++ (imwrite ∘ position <$> pre)) (allocated s)).
Proof.
  revert s. induction pre as [|fd pre IH]; intros [r cl al] Hpre.
  - cbn. by rewrite app_nil_r.
  - destruct (Hpre fd) as (name & Ht & Hw); [left|].
    cbn [app save_each]. rewrite Ht. unfold mbind, M_bind, do_call.
    cbn [self calls allocated]. rewrite Hw, IH by (intros; apply Hpre; by right).
    cbn [self calls allocated]. by rewrite <- app_assoc.
Qed.

Lemma writes_imwrite (l : list Z) : writes (imwrite <$> l) = l.
Proof. unfold writes. induction l as [|x l IH]; [done|]. cbn. by f_equal. Qed.

(** X16: [extract_frames_batch] without an output directory is
    [get_frames] with caching. With one, an error of [get_frames] comes
    before any directory or file is touched. When [get_frames] returned,
    the directory is created; if that raises, nothing is written. Then
    the frames are saved in the order returned, so ascending by position,
    one per requested position: when the template formats every position
    and no write raises, all are written and the frames of [get_frames]
    are returned; at the first position the template does not format, or
    whose write raises, the error goes to the caller, the earlier frames
    (and in the second case this one) having been written. In every case
    the reader is left as [get_frames] left it. *)
Theorem extract_frames_batch_spec (L : list Positions) (d : string)
    (t : Z → option string) (fs : FileSystem) s :
  extract_frames_batch vf L None t fs s = get_frames vf L true s ∧
  (∀ e s1, get_frames vf L true s = (Raise e, s1) →
           extract_frames_batch vf L (Some d) t fs s = (Raise e, s1)) ∧
  (∀ frames s1,
     get_frames vf L true s = (Ok frames, s1) →
     let saved (r : result (list FrameData)) (written : list FrameData) :=
       extract_frames_batch vf L (Some d) t fs s =
         (r, mkState (self s1)
               (calls s1 ++ mkdir :: (imwrite ∘ position <$> written))
               (allocated s1)) in
     let fine (fd : FrameData) :=
       ∃ name, t (position fd) = Some name ∧ imwrite_raises fs d name = false in
     (mkdir_raises fs d = true → saved (Raise OSError) []) ∧
     (mkdir_raises fs d = false → (∀ fd, fd ∈ frames → fine fd) →
      saved (Ok frames) frames ∧
      (wf vf s →
       writes (calls s1 ++ mkdir :: (imwrite ∘ position <$> frames)) =
         writes (calls s) ++ sorted_set (_flatten_positions L))) ∧
     (mkdir_raises fs d = false →
      ∀ pre fd post, frames = pre ++ fd :: post → (∀ fd', fd' ∈ pre → fine fd') →
        (t (position fd) = None → saved (Raise FormatError) pre) ∧
        (∀ name, t (position fd) = Some name → imwrite_raises fs d name = true →
                 saved (Raise cv2_error) (pre ++ [fd])))).
Proof.
  unfold extract_frames_batch. split_and!.
  - unfold mbind, M_bind, mret, M_ret.
    by destruct (get_frames vf L true s) as [[frames|e] s1].
  - intros e s1 E. by erewrite bind_raise.
  - intros frames s1 E. cbv zeta beta.
    erewrite bind_ok by exact E. split_and!.
    + intros Hmk. unfold mbind, M_bind, mret, M_ret, do_call, raise.
      rewrite Hmk. destruct s1 as [r cl al]. reflexivity.
    + intros Hmk Hfine. split.
      * unfold mbind, M_bind, mret, M_ret, do_call. rewrite Hmk.
        rewrite <- (app_nil_r frames) at 1.
        rewrite save_each_prefix by done. cbn [save_each self calls allocated].
        by rewrite <- app_assoc.
      * intros Hs. rewrite writes_app.
        change (writes (mkdir :: (imwrite ∘ position <$> frames)))
          with (writes (imwrite ∘ position <$> frames)).
        rewrite list_fmap_compose, writes_imwrite.
        rewrite (get_each_positions vf _ _ _ _ _ Hs E). f_equal.
        pose proof (keeps_writes_get_each (writes (calls s))
                      (sorted_set (_flatten_positions L)) true s Hs eq_refl) as Hw.
        unfold get_frames in E. by rewrite E in Hw.
    + intros Hmk pre fd post -> Hpre. split.
      * intros Ht. unfold mbind, M_bind, mret, M_ret, do_call, raise. rewrite Hmk.
        rewrite save_each_prefix by done. cbn [save_each self calls allocated].
        rewrite Ht. by rewrite <- app_assoc.
      * intros name Ht Hw. unfold mbind, M_bind, mret, M_ret, do_call, raise.
        rewrite Hmk. rewrite save_each_prefix by done.
        cbn [save_each self calls allocated]. rewrite Ht.
        cbn [self calls allocated]. rewrite Hw.
        rewrite fmap_app. unfold mbind, M_bind, do_call, raise.
        cbn. by rewrite <- !app_assoc.
Qed.

(** *** The [with] statement *)

(** X17: [with reader: body], for a body that keeps the invariants of
    the reader: when [open] raises the body does not run and the error is
    that of [open]; otherwise the result is the body's, returned or
    raised, and afterwards the reader holds no capture, its cache is
    empty and every capture created has been released. *)
Theorem with_reader_releases {A} (body : M A) s :
  wf vf s → balanced s → preserves vf body → keeps vf balanced body →
  (∀ e, (open vf s).1 = Raise e →
        with_reader vf body s = (Raise e, (open vf s).2)) ∧
  ((open vf s).1 = Ok () →
   (with_reader vf body s).1 = (body (open vf s).2).1 ∧
   _cap (self (with_reader vf body s).2) = None ∧
   _frame_cache (self (with_reader vf body s).2) = ∅ ∧
   created (calls (with_reader vf body s).2) =
     released (calls (with_reader vf body s).2)).
Proof.
  intros Hs Hb Hpres Hkeeps. unfold with_reader, __enter__, __exit__.
  pose proof (preserves_open vf s Hs) as Hs1.
  pose proof (keeps_balanced_open s Hs Hb) as Hb1.
  destruct (open vf s) as [[[]|e] s1]; cbn [fst snd] in *.
  - split; [intros e [=]|]. intros _.
    specialize (Hpres s1 Hs1). specialize (Hkeeps s1 Hs1 Hb1).
    destruct (body s1) as [r s2]. cbn [fst snd] in *.
    pose proof (keeps_balanced_close s2 Hpres Hkeeps) as Hc.
    split_and!; [done| |apply close_cache|].
    + destruct s2 as [[[c|] tf fp cache] cl al]; run; reflexivity.
    + unfold balanced in Hc.
      destruct s2 as [[[c|] tf fp cache] cl al]; revert Hc; run; lia.
  - split; [by intros e' [= ->]|intros [=]].
Qed.

End ReaderCalls.

(** ** Loading one item of the dataset *)

Section GetItemProps.

Import Reader.

Context {Tensor : Type}.
Variable disk : string → VideoFile.
Variable _preprocess_frame : ndarray → Tensor.

Implicit Types (s : state) (p : Z) (fd : FrameData) (cl : list call).

Lemma lt_sorted_NoDup (l : list Z) : StronglySorted Z.lt l → NoDup l.
Proof.
  induction 1 as [|x l Hs IH Hx]; constructor; [|done].
  intros Hin. rewrite Forall_forall in Hx. specialize (Hx x Hin). lia.
Qed.

(** A strictly ascending list is its own [sorted(set(...))]. *)
Lemma sorted_set_id (l : list Z) : StronglySorted Z.lt l → sorted_set l = l.
Proof.
  intros Hl. apply (StronglySorted_unique_strong Z.lt).
  - intros; lia.
  - apply sorted_set_ascending.
  - done.
  - apply NoDup_Permutation;
      [apply NoDup_sorted_set|by apply lt_sorted_NoDup|apply elem_of_sorted_set].
Qed.

Lemma range_ascending lo hi : StronglySorted Z.lt (range lo hi).
Proof.
  unfold range. generalize (hi - lo). intros n.
  destruct (decide (n ≤ 0)) as [Hn|Hn]; [rewrite seqZ_nil by done; constructor|].
  rewrite <- (Z2Nat.id n) by lia. generalize (Z.to_nat n). clear n Hn.
  intros k. revert lo. induction k as [|k IH]; intros lo; [constructor|].
  rewrite seqZ_cons by lia. constructor.
  - replace (Z.pred (Z.of_nat (S k))) with (Z.of_nat k) by lia. apply IH.
  - apply Forall_seqZ. intros; lia.
Qed.

Lemma opened_id vf s : is_Some (_cap (self s)) → opened vf s = s.
Proof. intros [c Hc]. unfold opened. by rewrite Hc. Qed.

(** With a capture at hand, one call appends at most a seek and a read
    and the capture stays. *)
Lemma get_frame_calls vf s p uc :
  wf vf s → is_opened vf = true → is_Some (_cap (self s)) →
  ∃ cl', calls (get_frame_at_position vf p uc s).2 = calls s ++ cl' ∧
         Forall decode_call cl' ∧
         is_Some (_cap (self (get_frame_at_position vf p uc s).2)).
Proof.
  intros Hs Ho Hcap. rewrite get_frame_eq by done. unfold get_frame_model.
  assert (touched vf s = s) as Ht.
  { unfold touched. destruct (_total_frames (self s)); [done|by apply opened_id]. }
  rewrite Ht, (opened_id vf s Hcap).
  assert (Forall decode_call [cap_set p; cap_read]) as Hd.
  { apply Forall_cons_2; [right; by eexists|].
    apply Forall_cons_2; [by left|constructor]. }
  destruct ((0 <=? p) && (p <? frame_count vf));
    [|exists []; by rewrite app_nil_r].
  destruct (if uc then _ else _); [exists []; by rewrite app_nil_r|].
  destruct (read_at vf p); [destruct (Qeq_bool _ _)|];
    exists [cap_set p; cap_read]; done.
Qed.

Lemma get_each_calls vf l uc s :
  wf vf s → is_opened vf = true → is_Some (_cap (self s)) →
  ∃ cl', calls (get_each vf l uc s).2 = calls s ++ cl' ∧
         Forall decode_call cl' ∧
         is_Some (_cap (self (get_each vf l uc s).2)).
Proof.
  intros Hs Ho. revert s Hs. induction l as [|p l IH]; intros s Hs Hcap;
    cbn [get_each].
  - exists []. by rewrite app_nil_r.
  - destruct (get_frame_calls vf s p uc Hs Ho Hcap) as (cl1 & E1 & Hd1 & Hc1).
    pose proof (preserves_get_frame vf p uc s Hs) as Hs1.
    unfold mbind, M_bind, mret, M_ret.
    destruct (get_frame_at_position vf p uc s) as [[fd|e] s1]; cbn [snd] in *;
      [|by exists cl1].
    destruct (IH s1 Hs1 Hc1) as (cl2 & E2 & Hd2 & Hc2).
    destruct (get_each vf l uc s1) as [[frames|e] s2]; cbn [snd] in *;
      exists (cl1 ++ cl2); rewrite E2, E1, <- app_assoc;
      (split_and!; [done|by apply Forall_app|done]).
Qed.

(** On a healthy video, with a capture at hand, positions that are not
    cached are decoded one after the other. *)
Lemma get_each_decode_all vf l s :
  healthy vf → wf vf s → is_Some (_cap (self s)) →
  Forall (λ p, 0 ≤ p < frame_count vf) l → NoDup l →
  (∀ p, p ∈ l → _frame_cache (self s) !! p = None) →
  ∃ frames s',
    get_each vf l true s = (Ok frames, s') ∧
    calls s' = calls s ++ flat_map (λ p, [cap_set p; cap_read]) l ∧
    Forall2 (λ p fd, position fd = p ∧ read_at vf p = Some (frame fd)) l frames ∧
    is_Some (_cap (self s')).
Proof.
  intros Hh. pose proof Hh as (Ho & Hread & Hrate). intros Hs Hcap Hl.
  revert s Hs Hcap. induction Hl as [|p l Hp Hl IH]; intros s Hs Hcap Hnd Hun;
    cbn [get_each flat_map].
  - exists [], s. rewrite app_nil_r. split_and!; by try constructor.
  - apply NoDup_cons in Hnd as [Hpl Hnd].
    destruct (Hread p Hp) as [img Himg].
    set (fd1 := mkFrameData (allocated s) img p (mk_float_div p (frame_rate vf))).
    set (s1 := mkState
                 (mkVideoReader (_cap (self s)) (Some (frame_count vf))
                    (Some (frame_rate vf)) (<[p := fd1]> (_frame_cache (self s))))
                 (calls s ++ [cap_set p; cap_read]) (S (allocated s))).
    assert (get_frame_at_position vf p true s = (Ok fd1, s1)) as E1.
    { rewrite get_frame_eq by done. unfold get_frame_model.
      replace ((0 <=? p) && (p <? frame_count vf)) with true
        by (symmetry; apply andb_true_intro; split;
            [apply Z.leb_le|apply Z.ltb_lt]; lia).
      rewrite (Hun p) by left. by rewrite Himg, Hrate, (opened_id vf s Hcap). }
    assert (wf vf s1) as Hs1.
    { pose proof (preserves_get_frame vf p true s Hs) as H. by rewrite E1 in H. }
    destruct (IH s1 Hs1) as (frames & s2 & E2 & Hcl & Hall & Hc2).
    + done.
    + done.
    + intros q Hq. cbn [s1 self _frame_cache]. rewrite lookup_insert_ne.
      * apply Hun. by right.
      * by intros ->.
    + exists (fd1 :: frames), s2. split_and!.
      * erewrite bind_ok by exact E1. erewrite bind_ok by exact E2. reflexivity.
      * rewrite Hcl. cbn [s1 calls]. by rewrite <- app_assoc.
      * by constructor.
      * done.
Qed.

(** X18: for a sequence of consecutive positions that all are frames of
    the file, on a healthy video, [__getitem__] returns one preprocessed
    frame per position, in the order of the positions and so of the
    labels, frame [i] being the image the file holds at position [i] of
    the sequence; the decoder is asked for exactly these positions, in
    order, between the creation of one capture and its release. *)
Theorem getitem_aligned sequences idx w n :
  Loader.py_index sequences idx = Some w →
  let vf := disk (Dataloader.filename (Dataloader.video_data w)) in
  path_exists vf = true → healthy vf →
  1 ≤ n →
  Dataloader.frame_positions w =
    range (Dataloader.start_frame w) (Dataloader.start_frame w + n) →
  0 ≤ Dataloader.start_frame w →
  Dataloader.start_frame w + n ≤ frame_count vf →
  ∃ frames,
    Loader.__getitem__ disk _preprocess_frame sequences idx =
      (inr (frames, Dataloader._get_scene_labels w),
       VideoCapture_new ::
       flat_map (λ p, [cap_set p; cap_read]) (Dataloader.frame_positions w) ++
       [cap_release]) ∧
    length frames = Z.to_nat n ∧
    length (Dataloader._get_scene_labels w) = Z.to_nat n ∧
    Forall2 (λ p t, ∃ img, read_at vf p = Some img ∧ t = _preprocess_frame img)
      (Dataloader.frame_positions w) frames.
Proof.
  intros Hidx vf Hex Hh Hn Hpos H0 Hend. pose proof Hh as (Ho & _ & _).
  set (l := Dataloader.frame_positions w) in *.
  assert (StronglySorted Z.lt l) as Hsorted by (rewrite Hpos; apply range_ascending).
  assert (Forall (λ p, 0 ≤ p < frame_count vf) l) as Hl.
  { apply Forall_forall. intros p. rewrite Hpos, elem_of_range. lia. }
  assert (length l = Z.to_nat n) as Hlen.
  { rewrite Hpos, length_range. f_equal. lia. }
  destruct (get_each_decode_all vf l (opened vf fresh) Hh)
    as (fds & s2 & E & Hcl & Hall & [c Hc]).
  { apply wf_opened; [apply wf_fresh|done]. }
  { by eexists. }
  { done. }
  { by apply lt_sorted_NoDup. }
  { intros p _. apply lookup_empty. }
  exists ((λ fd, _preprocess_frame (frame fd)) <$> fds).
  assert (length fds = Z.to_nat n) as Hfds.
  { rewrite <- Hlen. symmetry. by eapply Forall2_length. }
  split_and!.
  - unfold Loader.__getitem__. rewrite Hidx. fold vf. unfold __init__.
    rewrite Hex. cbn [negb]. unfold with_reader, __enter__.
    rewrite open_eq. cbn [fresh self _cap]. rewrite Ho.
    change (mkState (mkVideoReader None None None ∅) [] 0%nat) with fresh.
    unfold get_frames. fold l.
    rewrite _flatten_positions_ints, (sorted_set_id l Hsorted), E.
    destruct fds as [|fd0 fds']; [cbn in Hfds; lia|].
    rewrite fmap_cons. f_equal.
    destruct s2 as [[cap tf fp cache] cl2 al2]. cbn [self _cap calls] in *.
    subst cap cl2. unfold __exit__, close, set_cap, set_cache, get_self, put_self,
      do_call, mbind, M_bind, mret, M_ret.
    cbn [self calls allocated _cap _total_frames _fps _frame_cache snd fst opened fresh].
    by rewrite <- app_assoc.
  - by rewrite length_fmap.
  - unfold Dataloader._get_scene_labels. fold l. by rewrite length_fmap.
  - apply Forall2_fmap_r. eapply Forall2_impl; [exact Hall|].
    intros p fd [_ Hfd]. by exists (frame fd).
Qed.

(** X19: [__getitem__] with an index outside [-len, len) raises
    [IndexError]; for a file that is not there it raises
    [FileNotFoundError]; neither makes a call to the decoder. For a
    sequence that names a position outside the file, on a healthy video,
    it raises the range error of the reader, and the capture it created is
    released all the same: the calls are the creation, seeks and reads,
    and the release. *)
Theorem getitem_errors sequences idx :
  (Loader.py_index sequences idx = None →
   Loader.__getitem__ disk _preprocess_frame sequences idx =
     (inl Loader.IndexError, [])) ∧
  (∀ w, Loader.py_index sequences idx = Some w →
     path_exists (disk (Dataloader.filename (Dataloader.video_data w))) = false →
     Loader.__getitem__ disk _preprocess_frame sequences idx =
       (inl (Loader.ReaderError FileNotFoundError), [])) ∧
  (∀ w, Loader.py_index sequences idx = Some w →
     let vf := disk (Dataloader.filename (Dataloader.video_data w)) in
     path_exists vf = true → healthy vf →
     (∃ p, p ∈ Dataloader.frame_positions w ∧ ¬ (0 ≤ p < frame_count vf)) →
     ∃ cl', Loader.__getitem__ disk _preprocess_frame sequences idx =
              (inl (Loader.ReaderError ValueError_range),
               VideoCapture_new :: cl' ++ [cap_release]) ∧
            Forall decode_call cl').
Proof.
  unfold Loader.__getitem__. split_and!.
  - by intros ->.
  - intros w -> Hex. unfold __init__. by rewrite Hex.
  - intros w ->.
    set (vf := disk (Dataloader.filename (Dataloader.video_data w))).
    intros Hex Hh (p & Hp & Hout). pose proof Hh as (Ho & _ & _).
    unfold __init__. rewrite Hex. cbn [negb].
    unfold with_reader, __enter__. rewrite open_eq. cbn [fresh self _cap].
    rewrite Ho. change (mkState (mkVideoReader None None None ∅) [] 0%nat) with fresh.
    set (s1 := opened vf fresh).
    assert (wf vf s1) as Hs1 by (apply wf_opened; [apply wf_fresh|done]).
    unfold get_frames.
    set (l := sorted_set (_flatten_positions (PInt <$> Dataloader.frame_positions w))).
    pose proof (get_each_out_of_range vf l true s1 Hh Hs1) as Hr.
    destruct (get_each_calls vf l true s1 Hs1 Ho) as (cl' & Hcl & Hd & [c Hc]).
    { by eexists. }
    destruct (get_each vf l true s1) as [r s2]. cbn [fst snd] in *.
    rewrite Hr.
    2: { subst l. rewrite _flatten_positions_ints, Forall_forall.
         intros H. apply Hout, H. by apply elem_of_sorted_set. }
    exists cl'. split; [|done]. f_equal.
    destruct s2 as [[cap tf fp cache] cl2 al2]. cbn [self _cap calls] in *.
    subst cap cl2. unfold __exit__, close, set_cap, set_cache, get_self, put_self,
      do_call, mbind, M_bind, mret, M_ret.
    cbn [self calls allocated _cap _total_frames _fps _frame_cache snd fst].
    subst s1. cbn [opened fresh self _cap calls]. by rewrite <- app_assoc.
Qed.

End GetItemProps.

(** ** The further properties on the videos of the tests *)

Section MoreOnVideo100.

Import Reader.

Lemma failed_open_is_kept_witness :
  open broken_video fresh =
    (Raise RuntimeError_open, failed fresh) ∧
  open broken_video (failed fresh) = (Ok (), failed fresh) ∧
  get_frame_at_position broken_video 0 true (failed fresh) =
    (Raise TypeError, failed fresh).
Proof.
  destruct (failed_open_is_kept broken_video fresh)
    as (H1 & _ & H2 & _ & H3 & _).
  - apply wf_fresh.
  - reflexivity.
  - reflexivity.
  - split; [exact H1|]. split; [exact H2|]. apply H3. lia.
Defined.

Lemma video_info_spec_witness :
  (get_video_info video100 fresh).1 =
    Ok (mkVideoInfo (Some 100) (Some (30 # 1)) (mk_float_div 100 (30 # 1)) 1920 1080).
Proof.
  destruct (video_info_spec video100 fresh) as (H & _).
  - apply wf_fresh.
  - reflexivity.
  - rewrite H. reflexivity.
Defined.

Lemma close_then_read_decodes_again_witness :
  ∃ fd s1 fd' s3,
    get_frame_at_position video100 25 true fresh = (Ok fd, s1) ∧
    get_frame_at_position video100 25 true (close s1).2 = (Ok fd', s3) ∧
    ref fd' ≠ ref fd.
Proof.
  destruct (get_frame_at_position video100 25 true fresh) as [r s1] eqn:E.
  destruct r as [fd|e]; [|vm_compute in E; discriminate E].
  destruct (close_then_read_decodes_again video100 fresh 25 fd s1)
    as (fd' & s3 & E' & _ & Href & _).
  - apply healthy_video100.
  - apply wf_fresh.
  - exact E.
  - exists fd, s1, fd', s3. split; [reflexivity|]. split; [exact E'|exact Href].
Defined.

Lemma get_frames_decodes_once_witness :
  ∃ frames s1,
    get_frames video100 [PInt 20; PInt 10; PInt 20] true fresh = (Ok frames, s1) ∧
    seeks (calls s1) = [10; 20] ∧
    get_frames video100 [PInt 20; PInt 10; PInt 20] true s1 = (Ok frames, s1).
Proof.
  destruct (get_frames video100 [PInt 20; PInt 10; PInt 20] true fresh)
    as [r s1] eqn:E.
  destruct r as [frames|e]; [|vm_compute in E; discriminate E].
  destruct (get_frames_decodes_once video100 fresh
              [PInt 20; PInt 10; PInt 20] frames s1)
    as (Hk & _ & _ & Hagain).
  - apply healthy_video100.
  - apply wf_fresh.
  - cbn. repeat constructor; lia.
  - exact E.
  - exists frames, s1. split; [reflexivity|]. split; [|exact Hagain].
    rewrite Hk. vm_compute. reflexivity.
Defined.

Lemma get_frames_out_of_range_witness :
  (get_frames video100 [PInt 10; PInt (-1)] true fresh).1 = Raise ValueError_range ∧
  seeks (calls (get_frames video100 [PInt 10; PInt (-1)] true fresh).2) = [].
Proof.
  destruct (get_frames_out_of_range video100 fresh [PInt 10; PInt (-1)] true)
    as [H1 H2].
  - apply healthy_video100.
  - apply wf_fresh.
  - exists (-1). split; [right; left|cbn; lia].
  - split; [exact H1|]. apply H2. exists (-1). split; [right; left|lia].
Defined.

Lemma ranges_edge_cases_witness :
  get_frames_from_ranges video100 [(10, 15)] 0 true fresh
    = (Raise ValueError_step, fresh) ∧
  get_frames_from_ranges video100 [(10, 15)] (-1) true fresh = (Ok [], fresh).
Proof.
  destruct (ranges_edge_cases video100 [(10, 15)] (-1) true fresh)
    as (H0 & _ & Hneg & _).
  split; [apply H0; discriminate|apply Hneg; lia].
Defined.

Lemma ranges_positions_witness :
  ∃ frames s',
    get_frames_from_ranges video100 [(15, 10)] 2 true fresh = (Ok frames, s') ∧
    (12 ∈ (position <$> frames)).
Proof.
  destruct (ranges_positions video100 [(15, 10)] 2 true fresh)
    as (frames & s' & E & _ & Hx).
  - apply healthy_video100.
  - apply wf_fresh.
  - lia.
  - repeat constructor; cbn; lia.
  - exists frames, s'. split; [exact E|]. apply Hx.
    exists (15, 10). split; [left|]. cbn. split; [lia|reflexivity].
Defined.

Lemma extract_frames_batch_spec_witness :
  ∃ frames s2,
    extract_frames_batch video100 [PInt 20; PInt 10] (Some "out")
      (λ _, Some "frame.jpg") (mkFileSystem (λ _, false) (λ _ _, false)) fresh
      = (Ok frames, s2) ∧
    writes (calls s2) = [10; 20].
Proof.
  destruct (get_frames video100 [PInt 20; PInt 10] true fresh) as [r s1] eqn:E.
  destruct r as [frames|e]; [|vm_compute in E; discriminate E].
  destruct (extract_frames_batch_spec video100 [PInt 20; PInt 10] "out"
              (λ _, Some "frame.jpg") (mkFileSystem (λ _, false) (λ _ _, false)) fresh)
    as (_ & _ & H).
  destruct (H frames s1 E) as (_ & Hok & _).
  destruct Hok as [E2 Hw].
  - reflexivity.
  - intros fd _. by exists "frame.jpg".
  - eexists frames, _. split; [exact E2|]. cbn [calls].
    rewrite (Hw (wf_fresh video100)). vm_compute. reflexivity.
Defined.

Lemma with_reader_releases_witness :
  _cap (self (with_reader video100 (get_frames video100 [PInt 3] true) fresh).2)
    = None ∧
  created (calls (with_reader video100 (get_frames video100 [PInt 3] true) fresh).2)
    = released (calls (with_reader video100 (get_frames video100 [PInt 3] true) fresh).2).
Proof.
  destruct (with_reader_releases video100 (get_frames video100 [PInt 3] true) fresh)
    as [_ H].
  - apply wf_fresh.
  - reflexivity.
  - apply preserves_get_frames.
  - apply keeps_balanced_get_each.
  - destruct H as (_ & Hc & _ & Hb); [reflexivity|]. split; [exact Hc|exact Hb].
Defined.

Lemma getitem_aligned_witness :
  ∃ frames cl,
    Loader.__getitem__ (λ _, video100) (λ img, img)
      (Dataloader._generate_sequences Dataloader.scenario_A (λ _, 0)) (-1)
    = (inr (frames, replicate 9 0 ++ replicate 7 2), cl) ∧
    length frames = 16%nat.
Proof.
  destruct (getitem_aligned (λ _, video100) (λ img : ndarray, img)
              (Dataloader._generate_sequences Dataloader.scenario_A (λ _, 0)) (-1)
              (Dataloader.mkSequenceInfo
                 (Dataloader.mkVideoData "a.mp4" 100 (30 # 1) 1
                    [Dataloader.mkBoundary 40 41])
                 32 47 (range 32 48) (Dataloader.mkBoundary 40 41)) 16)
    as (frames & E & Hlen & _).
  - reflexivity.
  - reflexivity.
  - apply healthy_video100.
  - lia.
  - reflexivity.
  - cbn. lia.
  - cbn. lia.
  - exists frames. eexists. split; [exact E|exact Hlen].
Defined.

Lemma getitem_errors_witness :
  Loader.__getitem__ (λ _, video100) (λ img, img)
    (Dataloader._generate_sequences Dataloader.scenario_A (λ _, 0)) 1
  = (inl Loader.IndexError, []) ∧
  ∃ cl,
    Loader.__getitem__ (λ _, video100) (λ img, img)
      (Dataloader._generate_sequences (Dataloader.short_dataset 0 (Dataloader.mkBoundary 3 4))
         (λ _, 0)) 0
    = (inl (Loader.ReaderError ValueError_range), cl).
Proof.
  split.
  - apply (getitem_errors (λ _, video100) (λ img : ndarray, img)). reflexivity.
  - destruct (getitem_errors (λ _, video100) (λ img : ndarray, img)
                (Dataloader._generate_sequences
                   (Dataloader.short_dataset 0 (Dataloader.mkBoundary 3 4)) (λ _, 0)) 0)
      as (_ & _ & H).
    destruct (H (Dataloader.mkSequenceInfo
                   (Dataloader.short_video (Dataloader.mkBoundary 3 4)) (-6) 9
                   (range (-6) 10) (Dataloader.mkBoundary 3 4)))
      as (cl' & E & _).
    + reflexivity.
    + reflexivity.
    + apply healthy_video100.
    + exists (-6). split; [left|cbn; lia].
    + eexists. exact E.
Defined.

End MoreOnVideo100.
